(** * Verification of the encryption services of the email platform

    Two source files are embedded here:

    - [server/src/controllers/services/encryption.service.ts]
      (module [Server]): AES-256-GCM envelopes and PBKDF2 hashes on top of
      Node's [crypto] module;
    - [src/components/auth/security/EncryptionService.ts]
      (module [Client]): message and file encryption on top of OpenPGP.js.

    The wrappers are translated line by line.  What belongs to Node
    ([Buffer], the ['hex'] and ['utf8'] encodings) is written out; the
    cryptographic primitives ([pbkdf2Sync], the GCM cipher, [randomBytes],
    the OpenPGP.js calls) are the fields of an interface, and every
    theorem lists the part of their contract it relies on. *)

From Stdlib Require Import ZArith List String Ascii Bool Lia.
From Stdlib.Strings Require Import Byte.
Import ListNotations.

Local Open Scope Z_scope.

(** ** JavaScript strings and bytes *)

(** A JavaScript string is a sequence of UTF-16 code units. *)
Definition jsstring := list Z.

(** A [Buffer] is a sequence of bytes. *)
Definition Buffer := list byte.

(** String literals of the source, as code units. *)
Definition js (s : string) : jsstring :=
  map (fun a => Z.of_N (N_of_ascii a)) (list_ascii_of_string s).

Definition byte_val (b : byte) : Z := Z.of_N (Byte.to_N b).

Definition byte_of_Z (z : Z) : byte :=
  match Byte.of_N (Z.to_N z) with
  | Some b => b
  | None => x00
  end.

Definition byte_eqb (a b : byte) : bool := Byte.eqb a b.

Fixpoint bytes_eqb (a b : Buffer) : bool :=
  match a, b with
  | [], [] => true
  | x :: a', y :: b' => byte_eqb x y && bytes_eqb a' b'
  | _, _ => false
  end.

(** JavaScript truthiness of an optional string argument: [undefined] and
    the empty string are falsy. *)
Definition truthy (s : option jsstring) : bool :=
  match s with
  | Some (_ :: _) => true
  | _ => false
  end.

(** ** [Buffer] operations *)

Module Buf.

(** [Buffer.concat(list)]. *)
Definition concat (bs : list Buffer) : Buffer := List.concat bs.

(** [buf.slice(start, end)] for non-negative indices: both ends are
    clamped to the length of the buffer. *)
Definition slice (b : Buffer) (start stop : nat) : Buffer :=
  firstn (stop - start) (skipn start b).

(** [buf.slice(start)]. *)
Definition slice_from (b : Buffer) (start : nat) : Buffer := skipn start b.

End Buf.

(** ** The ['hex'] encoding *)

Module Hex.

(** One lowercase hexadecimal digit, as a code unit. *)
Definition digit (d : Z) : Z := if d <? 10 then 48 + d else 87 + d.

(** [buf.toString('hex')]: two lowercase digits per byte. *)
Fixpoint encode (b : Buffer) : jsstring :=
  match b with
  | [] => []
  | x :: rest =>
      digit (byte_val x / 16) :: digit (byte_val x mod 16) :: encode rest
  end.

(** Value of a hexadecimal digit given as a byte; both cases of the
    letters are read. *)
Definition unhex_byte (c : Z) : option Z :=
  if (48 <=? c) && (c <=? 57) then Some (c - 48)
  else if (97 <=? c) && (c <=? 102) then Some (c - 87)
  else if (65 <=? c) && (c <=? 70) then Some (c - 55)
  else None.

(** Value of a character of the string: Node looks at the low byte of
    its code unit only. *)
Definition unhex (c : Z) : option Z := unhex_byte (c mod 256).

(** [Buffer.from(s, 'hex')]: the string is read two characters at a time;
    decoding stops at the first pair that is not hexadecimal, and a
    trailing single character is dropped. *)
Fixpoint decode (s : jsstring) : Buffer :=
  match s with
  | a :: b :: rest =>
      match unhex a, unhex b with
      | Some h, Some l => byte_of_Z (16 * h + l) :: decode rest
      | _, _ => []
      end
  | _ => []
  end.

End Hex.

(** ** The ['utf8'] encoding *)

Module Utf8.

Definition is_high (c : Z) : bool := (0xD800 <=? c) && (c <=? 0xDBFF).
Definition is_low (c : Z) : bool := (0xDC00 <=? c) && (c <=? 0xDFFF).

(** [s.isWellFormed()]: every surrogate is half of a pair. *)
Fixpoint well_formed (s : jsstring) : bool :=
  match s with
  | [] => true
  | c :: rest =>
      if is_high c then
        match rest with
        | d :: rest' => is_low d && well_formed rest'
        | [] => false
        end
      else if is_low c then false
      else (0 <=? c) && (c <? 0x10000) && well_formed rest
  end.

(** A Unicode scalar value: a code point that is not a surrogate. *)
Definition scalar (cp : Z) : Prop :=
  0 <= cp < 0x110000 /\ ~ (0xD800 <= cp <= 0xDFFF).

(** The bytes of U+FFFD, written for a surrogate that has no partner. *)
Definition replacement : list Z := [0xEF; 0xBF; 0xBD].

(** UTF-8 bytes of one code point. *)
Definition encode_point (cp : Z) : list Z :=
  if cp <? 0x80 then [cp]
  else if cp <? 0x800 then [0xC0 + cp / 64; 0x80 + cp mod 64]
  else if cp <? 0x10000 then
    [0xE0 + cp / 4096; 0x80 + (cp / 64) mod 64; 0x80 + cp mod 64]
  else
    [0xF0 + cp / 262144; 0x80 + (cp / 4096) mod 64;
     0x80 + (cp / 64) mod 64; 0x80 + cp mod 64].

(** Code point of a surrogate pair. *)
Definition pair_point (hi lo : Z) : Z :=
  0x10000 + (hi - 0xD800) * 1024 + (lo - 0xDC00).

(** Byte values written by Node for a string under ['utf8']. *)
Fixpoint encode_units (s : jsstring) : list Z :=
  match s with
  | [] => []
  | c :: rest =>
      if is_high c then
        match rest with
        | d :: rest' =>
            if is_low d then encode_point (pair_point c d) ++ encode_units rest'
            else replacement ++ encode_units rest
        | [] => replacement
        end
      else if is_low c then replacement ++ encode_units rest
      else encode_point c ++ encode_units rest
  end.

Definition encode (s : jsstring) : Buffer := map byte_of_Z (encode_units s).

(** State of the decoder inside a multi-byte sequence: the code point so
    far, the number of continuation bytes still expected and the range
    allowed for the next byte. *)
Record pending := {
  point : Z;
  needed : nat;
  lower : Z;
  upper : Z
}.

(** Code units of one decoded code point. *)
Definition emit (cp : Z) : jsstring :=
  if cp <? 0x10000 then [cp]
  else [0xD800 + (cp - 0x10000) / 1024; 0xDC00 + (cp - 0x10000) mod 1024].

(** A byte read while no sequence is open. *)
Definition lead (b : Z) : jsstring * option pending :=
  if b <=? 0x7F then ([b], None)
  else if (0xC2 <=? b) && (b <=? 0xDF) then
    ([], Some {| point := b mod 32; needed := 1; lower := 0x80; upper := 0xBF |})
  else if (0xE0 <=? b) && (b <=? 0xEF) then
    ([], Some {| point := b mod 16; needed := 2;
                 lower := if b =? 0xE0 then 0xA0 else 0x80;
                 upper := if b =? 0xED then 0x9F else 0xBF |})
  else if (0xF0 <=? b) && (b <=? 0xF4) then
    ([], Some {| point := b mod 8; needed := 3;
                 lower := if b =? 0xF0 then 0x90 else 0x80;
                 upper := if b =? 0xF4 then 0x8F else 0xBF |})
  else ([0xFFFD], None).

(** The decoder: an ill-formed sequence yields U+FFFD and the offending
    byte is read again as the start of a new sequence. *)
Fixpoint decode_from (st : option pending) (bs : list Z) : jsstring :=
  match bs with
  | [] =>
      match st with
      | None => []
      | Some _ => [0xFFFD]
      end
  | b :: rest =>
      match st with
      | None =>
          let '(out, st') := lead b in out ++ decode_from st' rest
      | Some p =>
          if (lower p <=? b) && (b <=? upper p) then
            let cp := point p * 64 + b mod 64 in
            match needed p with
            | S (S n) =>
                decode_from
                  (Some {| point := cp; needed := S n;
                           lower := 0x80; upper := 0xBF |}) rest
            | _ => emit cp ++ decode_from None rest
            end
          else
            let '(out, st') := lead b in
            0xFFFD :: out ++ decode_from st' rest
      end
  end.

(** [buf.toString('utf8')]. *)
Definition decode (b : Buffer) : jsstring :=
  decode_from None (map byte_val b).

End Utf8.

(** ** server/src/controllers/services/encryption.service.ts *)

Module Server.

(** [new ApiError(statusCode, message)]. *)
Record ApiError := {
  statusCode : Z;
  message : string
}.

Inductive result (A : Type) : Type :=
| Ok (a : A)
| Throw (e : ApiError).
Arguments Ok {A} a.
Arguments Throw {A} e.

(** [StatusCodes.INTERNAL_SERVER_ERROR]. *)
Definition INTERNAL_SERVER_ERROR : Z := 500.

(** What the service uses of Node's [crypto] module.

    - [randomBytes n] draws [n] bytes from the entropy source;
    - [pbkdf2] is [pbkdf2Sync] on a password given as bytes;
    - [seal algorithm key iv plaintext] is [createCipheriv] followed by
      [update], [final] and [getAuthTag]: the ciphertext and the tag, or
      [None] when Node throws;
    - [open algorithm key iv tag ciphertext] is [createDecipheriv]
      followed by [setAuthTag], [update] and [final]: the plaintext, or
      [None] when Node throws (a tag that does not verify included). *)
Class NodeCrypto := {
  entropy : Type;
  randomBytes : nat -> entropy -> Buffer * entropy;
  pbkdf2 : Buffer -> Buffer -> Z -> nat -> string -> Buffer;
  seal : string -> Buffer -> Buffer -> Buffer -> option (Buffer * Buffer);
  open : string -> Buffer -> Buffer -> Buffer -> Buffer -> option Buffer
}.

Section Service.

Context {crypto : NodeCrypto}.

(** [config.encryption.secret]. *)
Variable secret : jsstring.

Definition algorithm : string := "aes-256-gcm".
Definition keyLength : nat := 32.
Definition ivLength : nat := 16.
Definition saltLength : nat := 64.
Definition tagLength : nat := 16.
Definition iterations : Z := 100000.
Definition digest : string := "sha256".

(** [crypto.pbkdf2Sync] with a string password: Node takes the UTF-8
    bytes of the string. *)
Definition pbkdf2Sync (password : jsstring) (salt : Buffer)
    (iters : Z) (keylen : nat) (dig : string) : Buffer :=
  pbkdf2 (Utf8.encode password) salt iters keylen dig.

Definition encrypt (data : jsstring) (g : entropy)
    : result jsstring * entropy :=
  let '(iv, g) := randomBytes ivLength g in
  let '(salt, g) := randomBytes saltLength g in
  let key := pbkdf2Sync secret salt iterations keyLength digest in
  match seal algorithm key iv (Utf8.encode data) with
  | Some (ciphertext, tag) =>
      let encrypted := Hex.encode ciphertext in
      (Ok (Hex.encode
             (Buf.concat [salt; iv; tag; Hex.decode encrypted])), g)
  | None =>
      (Throw {| statusCode := INTERNAL_SERVER_ERROR;
                message := "Failed to encrypt data" |}, g)
  end.

(** The four slices that [decrypt] takes from the decoded envelope:
    salt, IV, tag and encrypted data. *)
Definition decrypt_fields (encryptedData : jsstring)
    : Buffer * Buffer * Buffer * Buffer :=
  let inputBuffer := Hex.decode encryptedData in
  let salt := Buf.slice inputBuffer 0 saltLength in
  let iv := Buf.slice inputBuffer saltLength (saltLength + ivLength) in
  let tag :=
    Buf.slice inputBuffer (saltLength + ivLength)
      (saltLength + ivLength + tagLength) in
  let encrypted :=
    Buf.slice_from inputBuffer (saltLength + ivLength + tagLength) in
  (salt, iv, tag, encrypted).

Definition decrypt (encryptedData : jsstring) : result jsstring :=
  let '(salt, iv, tag, encrypted) := decrypt_fields encryptedData in
  let key := pbkdf2Sync secret salt iterations keyLength digest in
  match open algorithm key iv tag (Hex.decode (Hex.encode encrypted)) with
  | Some plaintext => Ok (Utf8.decode plaintext)
  | None =>
      Throw {| statusCode := INTERNAL_SERVER_ERROR;
               message := "Failed to decrypt data" |}
  end.

Definition hash (data : jsstring) (g : entropy)
    : result jsstring * entropy :=
  let '(salt, g) := randomBytes saltLength g in
  let h := pbkdf2Sync data salt iterations keyLength digest in
  (Ok (Hex.encode (Buf.concat [salt; h])), g).

(** [crypto.timingSafeEqual] throws when the two buffers differ in
    length. *)
Definition timingSafeEqual (a b : Buffer) : option bool :=
  if Nat.eqb (List.length a) (List.length b) then Some (bytes_eqb a b) else None.

Definition verifyHash (data storedHash : jsstring) : result bool :=
  let inputBuffer := Hex.decode storedHash in
  let salt := Buf.slice inputBuffer 0 saltLength in
  let originalHash := Buf.slice_from inputBuffer saltLength in
  let h := pbkdf2Sync data salt iterations keyLength digest in
  match timingSafeEqual h originalHash with
  | Some b => Ok b
  | None =>
      Throw {| statusCode := INTERNAL_SERVER_ERROR;
               message := "Failed to verify hash" |}
  end.

End Service.

(** *** Contract of Node's primitives

    Each theorem below names the parts it needs. *)
Section Contract.

Context {crypto : NodeCrypto}.

(** [randomBytes(n)] returns [n] bytes. *)
Definition random_length : Prop :=
  forall n g, List.length (fst (randomBytes n g)) = n.

(** [pbkdf2Sync(.., keylen, ..)] returns [keylen] bytes. *)
Definition pbkdf2_length : Prop :=
  forall password salt iters keylen dig,
    List.length (pbkdf2 password salt iters keylen dig) = keylen.

(** With a 32-byte key and a 16-byte IV, AES-256-GCM encrypts without
    throwing and its tag has 16 bytes. *)
Definition gcm_seals : Prop :=
  forall key iv plaintext,
    List.length key = keyLength ->
    List.length iv = ivLength ->
    exists ciphertext tag,
      seal algorithm key iv plaintext = Some (ciphertext, tag) /\
      List.length tag = tagLength.

(** Decrypting what was encrypted, with the same key, IV and tag,
    gives the plaintext back. *)
Definition gcm_opens : Prop :=
  forall key iv plaintext ciphertext tag,
    seal algorithm key iv plaintext = Some (ciphertext, tag) ->
    open algorithm key iv tag ciphertext = Some plaintext.

(** The IV and the salt that a call of [encrypt] draws from the
    entropy source in state [g]. *)
Definition draws (g : entropy) : Buffer * Buffer :=
  let '(iv, g1) := randomBytes ivLength g in
  (iv, fst (randomBytes saltLength g1)).

End Contract.

(** The string obtained from [s] by putting [c] at index [i]: the
    alteration of one character of an envelope. *)
Fixpoint alter (i : nat) (c : Z) (s : jsstring) : jsstring :=
  match s, i with
  | [], _ => []
  | _ :: rest, O => c :: rest
  | x :: rest, S i' => x :: alter i' c rest
  end.

(** *** A small instance of the interface

    It is not a cipher; it obeys the contract the theorems assume, so
    that each of them can be run on concrete data. *)
Module Toy.

Definition checksum (b : Buffer) : byte :=
  byte_of_Z (fold_right (fun x acc => (byte_val x + acc) mod 256) 0 b).

Definition toy_random (n : nat) (g : nat) : Buffer * nat :=
  (repeat (byte_of_Z (Z.of_nat g mod 256)) n, S g).

Definition toy_pbkdf2 (password salt : Buffer) (iters : Z)
    (keylen : nat) (dig : string) : Buffer :=
  repeat (checksum (password ++ salt)) keylen.

Definition toy_tag (key iv ciphertext : Buffer) : Buffer :=
  repeat (checksum (firstn 1 key ++ iv ++ ciphertext)) 16.

Definition toy_seal (alg : string) (key iv plaintext : Buffer)
    : option (Buffer * Buffer) :=
  if Nat.eqb (List.length key) 32 && negb (Nat.eqb (List.length iv) 0) then
    Some (rev plaintext, toy_tag key iv (rev plaintext))
  else None.

Definition toy_open (alg : string) (key iv tag ciphertext : Buffer)
    : option Buffer :=
  if Nat.eqb (List.length key) 32 && negb (Nat.eqb (List.length iv) 0)
     && bytes_eqb tag (toy_tag key iv ciphertext)
  then Some (rev ciphertext)
  else None.

#[export] Instance toy_crypto : NodeCrypto := {|
  entropy := nat;
  randomBytes := toy_random;
  pbkdf2 := toy_pbkdf2;
  seal := toy_seal;
  open := toy_open
|}.

(** The envelope of ["secret-token"] under ["shared-secret"] when
    the entropy source is in state 170: the salt is made of the
    bytes [ab], so that the envelope starts with the letter [a]. *)
Definition sample_envelope : jsstring :=
  match fst (encrypt (js "shared-secret") (js "secret-token") 170%nat) with
  | Ok e => e
  | Throw _ => []
  end.

End Toy.

End Server.


(** ** Text messages of OpenPGP.js

    [createMessage({ text })] keeps the text in a literal data packet.
    The packet is written as the UTF-8 bytes of the text with its line
    endings made CR LF, and [decrypt] returns the text read back from
    these bytes with CR LF made LF. *)

Module Literal.

Definition is_cr (x : byte) : bool := byte_val x =? 13.
Definition is_lf (x : byte) : bool := byte_val x =? 10.

(** [util.canonicalizeEOL]: a CR is put before every LF that does not
    follow one.  [after_cr] tells whether the byte before was a CR. *)
Fixpoint canonical_from (after_cr : bool) (b : Buffer) : Buffer :=
  match b with
  | [] => []
  | x :: rest =>
      if is_lf x && negb after_cr then x0d :: x :: canonical_from false rest
      else x :: canonical_from (is_cr x) rest
  end.

Definition canonicalizeEOL (b : Buffer) : Buffer := canonical_from false b.

(** [util.nativeEOL]: a CR that an LF follows is dropped. *)
Fixpoint nativeEOL (b : Buffer) : Buffer :=
  match b with
  | [] => []
  | x :: rest =>
      match rest with
      | y :: _ =>
          if is_cr x && is_lf y then nativeEOL rest else x :: nativeEOL rest
      | [] => [x]
      end
  end.

(** [packet.getBytes()] of a packet made from a text. *)
Definition getBytes (text : jsstring) : Buffer :=
  canonicalizeEOL (Utf8.encode text).

(** [packet.getText()] of a packet read from bytes. *)
Definition getText (bytes : Buffer) : jsstring :=
  Utf8.decode (nativeEOL bytes).

(** The first element is an LF. *)
Definition starts_lf (s : list Z) : bool :=
  match s with
  | d :: _ => d =? 10
  | [] => false
  end.

(** No CR is followed by an LF, in a string or in byte values. *)
Fixpoint no_crlf (s : list Z) : bool :=
  match s with
  | [] => true
  | c :: rest => negb ((c =? 13) && starts_lf rest) && no_crlf rest
  end.

End Literal.

(** ** src/components/auth/security/EncryptionService.ts *)

Module Client.

(** [new Error(message)]. *)
Inductive JsError : Type :=
| Error (message : string).

Inductive result (A : Type) : Type :=
| Ok (a : A)
| Throw (e : JsError).
Arguments Ok {A} a.
Arguments Throw {A} e.

(** What [openpgp.decrypt] resolves to: the data, the file name carried
    by the message and one entry per signature. *)
Record DecryptResult (Data Sig : Type) := {
  data : Data;
  filename : option jsstring;
  signatures : list Sig
}.
Arguments data {Data Sig} _.
Arguments filename {Data Sig} _.
Arguments signatures {Data Sig} _.

(** What the service uses of OpenPGP.js.  A call that rejects is [None].

    - [encrypt_armored message encryptionKeys signingKeys] and
      [encrypt_binary] are [openpgp.encrypt] without and with
      [format: 'binary']; the last argument stands for the randomness
      of the call;
    - [decrypt_utf8 message decryptionKeys verificationKeys] and
      [decrypt_binary] are [openpgp.decrypt] without and with
      [format: 'binary'];
    - [verified s] tells whether the promise [s.verified] resolves
      ([true]) or rejects ([false]). *)
Class OpenPGP := {
  Key : Type;
  PrivateKey : Type;
  Message : Type;
  Signature : Type;
  Seed : Type;
  readKey : jsstring -> option Key;
  readPrivateKey : jsstring -> option PrivateKey;
  decryptKey : PrivateKey -> jsstring -> option PrivateKey;
  createMessage_text : jsstring -> option Message;
  createMessage_binary : Buffer -> jsstring -> option Message;
  readMessage_armored : jsstring -> option Message;
  readMessage_binary : Buffer -> option Message;
  encrypt_armored :
    Message -> Key -> option PrivateKey -> Seed -> option jsstring;
  encrypt_binary :
    Message -> Key -> option PrivateKey -> Seed -> option Buffer;
  decrypt_utf8 :
    Message -> PrivateKey -> option Key ->
    option (DecryptResult jsstring Signature);
  decrypt_binary :
    Message -> PrivateKey -> option Key ->
    option (DecryptResult Buffer Signature);
  verified : Signature -> bool
}.

(** The body of a [try] block, and the [catch] that replaces whatever
    was thrown by one fixed error. *)
Definition try_catch {A : Type} (body : option A) (msg : string)
    : result A :=
  match body with
  | Some a => Ok a
  | None => Throw (Error msg)
  end.

Notation "x <- e ;; k" :=
  (match e with
   | Some x => k
   | None => None
   end) (at level 61, e at next level, right associativity).

(** Result of [decryptMessage]. *)
Record Decrypted := {
  message : jsstring;
  message_verified : bool
}.

(** Argument of [encryptFile]: a [File] with its name and content. *)
Record File := {
  name : jsstring;
  content : Buffer
}.

(** Result of [encryptFile]. *)
Record EncryptedFile := {
  encryptedData : Buffer;
  encrypted_filename : jsstring
}.

(** Result of [decryptFile]. *)
Record DecryptedFile := {
  decryptedData : Buffer;
  decrypted_filename : jsstring;
  file_verified : bool
}.

Section Service.

Context {pgp : OpenPGP}.

(** [if (senderPrivateKey && passphrase)]: the signing key is unlocked
    only when both optional arguments are truthy. *)
Definition signing_keys (senderPrivateKey passphrase : option jsstring)
    : option (option PrivateKey) :=
  if truthy senderPrivateKey && truthy passphrase then
    match senderPrivateKey, passphrase with
    | Some armoredKey, Some pass =>
        locked <- readPrivateKey armoredKey ;;
        privateKey <- decryptKey locked pass ;;
        Some (Some privateKey)
    | _, _ => Some None
    end
  else Some None.

(** [if (senderPublicKey)]: the verification key is read only when
    the optional argument is truthy. *)
Definition verification_keys (senderPublicKey : option jsstring)
    : option (option Key) :=
  if truthy senderPublicKey then
    match senderPublicKey with
    | Some armoredKey =>
        key <- readKey armoredKey ;;
        Some (Some key)
    | None => Some None
    end
  else Some None.

(** [let verified = false; if (signatures.length > 0) { try { await
    signatures[0].verified; verified = true } catch { } }]. *)
Definition first_verified (sigs : list Signature) : bool :=
  match sigs with
  | s :: _ => verified s
  | [] => false
  end.

Definition encryptMessage (msg recipientPublicKey : jsstring)
    (senderPrivateKey passphrase : option jsstring) (seed : Seed)
    : result jsstring :=
  try_catch
    (publicKey <- readKey recipientPublicKey ;;
     m <- createMessage_text msg ;;
     signingKeys <- signing_keys senderPrivateKey passphrase ;;
     encrypt_armored m publicKey signingKeys seed)
    "Kunne ikke kryptere beskeden".

Definition decryptMessage (encryptedMessage privateKey passphrase : jsstring)
    (senderPublicKey : option jsstring) : result Decrypted :=
  try_catch
    (locked <- readPrivateKey privateKey ;;
     decryptedPrivateKey <- decryptKey locked passphrase ;;
     m <- readMessage_armored encryptedMessage ;;
     verificationKeys <- verification_keys senderPublicKey ;;
     r <- decrypt_utf8 m decryptedPrivateKey verificationKeys ;;
     Some {| message := data r;
             message_verified := first_verified (signatures r) |})
    "Kunne ikke dekryptere beskeden".

Definition encryptFile (file : File) (recipientPublicKey : jsstring)
    (senderPrivateKey passphrase : option jsstring) (seed : Seed)
    : result EncryptedFile :=
  try_catch
    (m <- createMessage_binary (content file) (name file) ;;
     publicKey <- readKey recipientPublicKey ;;
     signingKeys <- signing_keys senderPrivateKey passphrase ;;
     encrypted <- encrypt_binary m publicKey signingKeys seed ;;
     Some {| encryptedData := encrypted;
             encrypted_filename := name file ++ js ".pgp" |})
    "Kunne ikke kryptere filen".

(** [filename || 'decrypted_file']. *)
Definition filename_or_default (f : option jsstring) : jsstring :=
  if truthy f then
    match f with
    | Some n => n
    | None => js "decrypted_file"
    end
  else js "decrypted_file".

Definition decryptFile (encrypted : Buffer)
    (privateKey passphrase : jsstring)
    (senderPublicKey : option jsstring) : result DecryptedFile :=
  try_catch
    (locked <- readPrivateKey privateKey ;;
     decryptedPrivateKey <- decryptKey locked passphrase ;;
     m <- readMessage_binary encrypted ;;
     verificationKeys <- verification_keys senderPublicKey ;;
     r <- decrypt_binary m decryptedPrivateKey verificationKeys ;;
     Some {| decryptedData := data r;
             decrypted_filename := filename_or_default (filename r);
             file_verified := first_verified (signatures r) |})
    "Kunne ikke dekryptere filen".

End Service.

(** *** Contract of OpenPGP.js *)
Section Contract.

Context {pgp : OpenPGP}.

(** [(pub, priv)] is a valid key pair protected by [passphrase]: both
    keys parse, the passphrase unlocks the private key, and every text
    message encrypted for the public key without signing is decrypted by
    the unlocked private key, to the text of its literal data packet. *)
Definition valid_keypair (pub priv passphrase : jsstring) : Prop :=
  exists publicKey locked privateKey,
    readKey pub = Some publicKey /\
    readPrivateKey priv = Some locked /\
    decryptKey locked passphrase = Some privateKey /\
    forall text seed,
      exists m armored m' r,
        createMessage_text text = Some m /\
        encrypt_armored m publicKey None seed = Some armored /\
        readMessage_armored armored = Some m' /\
        decrypt_utf8 m' privateKey None = Some r /\
        data r = Literal.getText (Literal.getBytes text).

(** Without verification keys no signature verifies: the promise
    [verified] of every signature rejects. *)
Definition unverifiable_without_keys : Prop :=
  forall m privateKey r,
    decrypt_utf8 m privateKey None = Some r ->
    forall s, In s (signatures r) -> verified s = false.

End Contract.

End Client.

(** ** A small instance of the OpenPGP interface

    Keys are one character long, the passphrase of key [k] is the
    character [k + 1], and a message for [k] is [k], then the signer (or
    [0]), then the text.  It obeys the contract the theorems assume. *)

Module ToyPGP.

Record toy_message := {
  recipient : option Z;
  signer : option Z;
  text : jsstring;
  bin : Buffer;
  fname : option jsstring
}.

Definition toy_readKey (s : jsstring) : option Z :=
  match s with
  | [k] => Some k
  | _ => None
  end.

Definition toy_readPrivateKey (s : jsstring) : option (Z * bool) :=
  match s with
  | [k] => Some (k, false)
  | _ => None
  end.

Definition toy_decryptKey (key : Z * bool) (pass : jsstring)
    : option (Z * bool) :=
  match pass with
  | [p] => if p =? fst key + 1 then Some (fst key, true) else None
  | _ => None
  end.

Definition signer_code (sk : option (Z * bool)) : option Z :=
  match sk with
  | None => Some 0
  | Some (k, true) => Some k
  | Some (_, false) => None
  end.

Definition signer_of (code : Z) : option Z :=
  if code =? 0 then None else Some code.

Definition toy_encrypt_armored (m : toy_message) (k : Z)
    (sk : option (Z * bool)) (seed : unit) : option jsstring :=
  match signer_code sk with
  | Some sg => Some (k :: sg :: text m)
  | None => None
  end.

Definition toy_encrypt_binary (m : toy_message) (k : Z)
    (sk : option (Z * bool)) (seed : unit) : option Buffer :=
  match signer_code sk with
  | Some sg => Some (byte_of_Z k :: byte_of_Z sg :: bin m)
  | None => None
  end.

Definition toy_readMessage_armored (s : jsstring) : option toy_message :=
  match s with
  | k :: sg :: body =>
      Some {| recipient := Some k; signer := signer_of sg; text := body;
              bin := []; fname := None |}
  | _ => None
  end.

Definition toy_readMessage_binary (b : Buffer) : option toy_message :=
  match b with
  | k :: sg :: body =>
      Some {| recipient := Some (byte_val k);
              signer := signer_of (byte_val sg); text := [];
              bin := body; fname := None |}
  | _ => None
  end.

Definition toy_signatures (m : toy_message) (vk : option Z) : list bool :=
  match signer m with
  | Some sg =>
      match vk with
      | Some v => [v =? sg]
      | None => [false]
      end
  | None => []
  end.

Definition toy_decrypt {Data : Type} (payload : toy_message -> Data)
    (m : toy_message) (sk : Z * bool) (vk : option Z)
    : option (Client.DecryptResult Data bool) :=
  match recipient m with
  | Some k =>
      if snd sk && (k =? fst sk) then
        Some {| Client.data := payload m;
                Client.filename := fname m;
                Client.signatures := toy_signatures m vk |}
      else None
  | None => None
  end.

#[export] Instance toy_pgp : Client.OpenPGP := {|
  Client.Key := Z;
  Client.PrivateKey := Z * bool;
  Client.Message := toy_message;
  Client.Signature := bool;
  Client.Seed := unit;
  Client.readKey := toy_readKey;
  Client.readPrivateKey := toy_readPrivateKey;
  Client.decryptKey := toy_decryptKey;
  Client.createMessage_text := fun t =>
    Some {| recipient := None; signer := None; text := t; bin := [];
            fname := None |};
  Client.createMessage_binary := fun b f =>
    Some {| recipient := None; signer := None; text := []; bin := b;
            fname := Some f |};
  Client.readMessage_armored := toy_readMessage_armored;
  Client.readMessage_binary := toy_readMessage_binary;
  Client.encrypt_armored := toy_encrypt_armored;
  Client.encrypt_binary := toy_encrypt_binary;
  Client.decrypt_utf8 := toy_decrypt text;
  Client.decrypt_binary := toy_decrypt bin;
  Client.verified := fun s => s
|}.

End ToyPGP.


(** ** More of the ['hex'] and ['utf8'] encodings *)

Module Text.

(** A lowercase hexadecimal digit, [0-9a-f]. *)
Definition is_lower_digit (c : Z) : bool :=
  ((48 <=? c) && (c <=? 57)) || ((97 <=? c) && (c <=? 102)).

(** [c.toUpperCase()] on the letters [a-z]; other characters of an
    ASCII string stay as they are. *)
Definition upper (c : Z) : Z :=
  if (97 <=? c) && (c <=? 122) then c - 32 else c.

(** Every code unit of a string is below 2^16. *)
Definition code_units (s : jsstring) : Prop :=
  Forall (fun c => 0 <= c < 0x10000) s.

(** [s.toWellFormed()]: every surrogate that is not half of a pair
    becomes U+FFFD. *)
Fixpoint toWellFormed (s : jsstring) : jsstring :=
  match s with
  | [] => []
  | c :: rest =>
      if Utf8.is_high c then
        match rest with
        | d :: rest' =>
            if Utf8.is_low d then c :: d :: toWellFormed rest'
            else 0xFFFD :: toWellFormed rest
        | [] => [0xFFFD]
        end
      else if Utf8.is_low c then 0xFFFD :: toWellFormed rest
      else c :: toWellFormed rest
  end.

End Text.

(** ** encryption.service.ts: tokens and passwords *)

Module ServerTokens.

Import Server.

Section Service.

Context {crypto : NodeCrypto}.

(** What [generateToken] leaves its caller with: the token, or the
    [RangeError] of [randomBytes], which the method does not catch. *)
Inductive Token : Type :=
| Returned (token : jsstring)
| RangeError (code : string).

(** The largest size that [randomBytes] takes. *)
Definition kMaxPossibleLength : Z := 2 ^ 31 - 1.

(** [generateToken(length = 32)] for an integer [length]; [None] is the
    omitted argument.  [randomBytes] throws a [RangeError] for a size
    that is negative or above [kMaxPossibleLength], and the method has no
    [try]. *)
Definition generateToken (length : option Z) (g : entropy)
    : Token * entropy :=
  let size := match length with
              | Some n => n
              | None => 32
              end in
  if (0 <=? size) && (size <=? kMaxPossibleLength) then
    let '(bytes, g) := randomBytes (Z.to_nat size) g in
    (Returned (Hex.encode bytes), g)
  else (RangeError "ERR_OUT_OF_RANGE", g).

(** [randomBytes(n)] returns [n] bytes, for the sizes that it takes. *)
Definition random_size : Prop :=
  forall n g,
    Z.of_nat n <= kMaxPossibleLength ->
    List.length (fst (randomBytes n g)) = n.

Definition hashPassword (password : jsstring) (g : entropy)
    : result jsstring * entropy :=
  let '(salt, g) := randomBytes saltLength g in
  let h := pbkdf2Sync password salt iterations keyLength digest in
  (Ok (Hex.encode (Buf.concat [salt; h])), g).

Definition verifyPassword (password hashedPassword : jsstring)
    : result bool :=
  verifyHash password hashedPassword.

(** [generateIV()]. *)
Definition generateIV (g : entropy) : Buffer * entropy :=
  randomBytes ivLength g.

(** [generateSalt()]. *)
Definition generateSalt (g : entropy) : Buffer * entropy :=
  randomBytes saltLength g.

(** [createDecipheriv] throws when the IV is empty. *)
Definition gcm_needs_iv : Prop :=
  forall key tag ciphertext, open algorithm key [] tag ciphertext = None.

End Service.

End ServerTokens.

(** ** EncryptionService.ts: keys *)

Module ClientKeys.

Import Client.

(** [KeyPair] of [types/encryption.types]. *)
Record KeyPair := {
  publicKey : jsstring;
  privateKey : jsstring;
  email : jsstring;
  createdAt : jsstring
}.

(** What the key methods use of OpenPGP.js beyond [OpenPGP]:

    - [generateKey email passphrase seed] is [openpgp.generateKey] for an
      ECC key on curve25519 with the one user ID [{ email }], armored:
      the private and the public key, or [None] when the call rejects;
    - [getUserIDs key] is [key.getUserIDs()];
    - [armor key] is [key.armor()]. *)
Class OpenPGPKeys {pgp : OpenPGP} := {
  generateKey : jsstring -> jsstring -> Seed -> option (jsstring * jsstring);
  getUserIDs : Key -> list jsstring;
  armor : Key -> jsstring
}.

Fixpoint jsstring_eqb (a b : jsstring) : bool :=
  match a, b with
  | [], [] => true
  | x :: a', y :: b' => (x =? y) && jsstring_eqb a' b'
  | _, _ => false
  end.

(** [keyCache]: a [Map] from strings to key pairs, in insertion order. *)
Definition KeyCache := list (jsstring * KeyPair).

(** [map.get(key)]. *)
Fixpoint cache_get (key : jsstring) (cache : KeyCache) : option KeyPair :=
  match cache with
  | [] => None
  | (k, v) :: rest => if jsstring_eqb key k then Some v else cache_get key rest
  end.

(** [map.set(key, value)]: the value of a key that is present is
    replaced where it is, a new key goes to the end. *)
Fixpoint cache_set (key : jsstring) (value : KeyPair) (cache : KeyCache)
    : KeyCache :=
  match cache with
  | [] => [(key, value)]
  | (k, v) :: rest =>
      if jsstring_eqb key k then (k, value) :: rest
      else (k, v) :: cache_set key value rest
  end.

(** *** The regular expression [/<(.+)>/]

    [.] is any code unit but a line terminator. *)

Definition line_terminator (c : Z) : bool :=
  (c =? 10) || (c =? 13) || (c =? 0x2028) || (c =? 0x2029).

(** The characters that [.+] can take at most: up to the first line
    terminator. *)
Fixpoint dots (s : jsstring) : jsstring :=
  match s with
  | [] => []
  | c :: rest => if line_terminator c then [] else c :: dots rest
  end.

(** [.+] followed by [>] inside [line]: the longest prefix of [line] of
    one character at least that is followed by [>]. *)
Fixpoint greedy (line : jsstring) : option jsstring :=
  match line with
  | [] => None
  | c :: rest =>
      match greedy rest with
      | Some e => Some (c :: e)
      | None =>
          match rest with
          | d :: _ => if d =? 62 then Some [c] else None
          | [] => None
          end
      end
  end.

(** [s.match(/<(.+)>/)?.[1]]: the group of the leftmost match. *)
Fixpoint match_angle (s : jsstring) : option jsstring :=
  match s with
  | [] => None
  | c :: rest =>
      if c =? 60 then
        match greedy (dots rest) with
        | Some e => Some e
        | None => match_angle rest
        end
      else match_angle rest
  end.

Section Service.

Context {pgp : OpenPGP} {keys : OpenPGPKeys}.

(** [generateKeyPair(email, passphrase)]; [now] is
    [new Date().toISOString()], [cache] is [this.keyCache]. *)
Definition generateKeyPair (mail passphrase : jsstring) (seed : Seed)
    (now : jsstring) (cache : KeyCache) : result KeyPair * KeyCache :=
  match generateKey mail passphrase seed with
  | Some (priv, pub) =>
      let keyPair :=
        {| publicKey := pub; privateKey := priv; email := mail;
           createdAt := now |} in
      (Ok keyPair, cache_set mail keyPair cache)
  | None => (Throw (Error "Kunne ikke generere nøglepar"), cache)
  end.

Definition validatePublicKey (pub : jsstring) : bool :=
  match readKey pub with
  | Some _ => true
  | None => false
  end.

Definition validatePrivateKey (priv passphrase : jsstring) : bool :=
  match
    (locked <- readPrivateKey priv ;;
     decryptKey locked passphrase)
  with
  | Some _ => true
  | None => false
  end.

Definition getKeyEmail (pub : jsstring) : option jsstring :=
  match readKey pub with
  | Some key =>
      match getUserIDs key with
      | first :: _ =>
          match match_angle first with
          | Some ((_ :: _) as mail) => Some mail
          | _ => None
          end
      | [] => None
      end
  | None => None
  end.

Definition exportPublicKey (pub : jsstring) : result jsstring :=
  try_catch
    (key <- readKey pub ;;
     Some (armor key))
    "Kunne ikke eksportere offentlig nøgle".

Definition clearKeyCache (cache : KeyCache) : KeyCache := [].

(** OpenPGP.js reads the armor of a key back to that key. *)
Definition armor_parses : Prop :=
  forall key, readKey (armor key) = Some key.

(** OpenPGP.js carries the file through the key pair: both keys parse,
    the passphrase unlocks the private key, and the content and the name
    of [file], encrypted for the public key without signing, come back
    from the decryption with the unlocked private key. *)
Definition valid_keypair_file (pub priv passphrase : jsstring)
    (file : File) (seed : Seed) : Prop :=
  exists key locked unlocked m encrypted m' r,
    readKey pub = Some key /\
    readPrivateKey priv = Some locked /\
    decryptKey locked passphrase = Some unlocked /\
    createMessage_binary (content file) (name file) = Some m /\
    encrypt_binary m key None seed = Some encrypted /\
    readMessage_binary encrypted = Some m' /\
    decrypt_binary m' unlocked None = Some r /\
    data r = content file /\
    filename r = Some (name file).

(** Without verification keys no signature of a file verifies. *)
Definition unverifiable_file_without_keys : Prop :=
  forall m unlocked r,
    decrypt_binary m unlocked None = Some r ->
    forall s, In s (signatures r) -> verified s = false.

End Service.

End ClientKeys.

(** ** The toy OpenPGP instance, with keys

    A key is generated for the first character [k] of the address when
    the passphrase is the character [k + 1]; the key [7] belongs to
    Alice, the key [9] has a user ID without address. *)

Module ToyKeys.

Import ToyPGP.

Definition toy_generateKey (mail passphrase : jsstring) (seed : unit)
    : option (jsstring * jsstring) :=
  match mail, passphrase with
  | k :: _, [p] => if p =? k + 1 then Some ([k], [k]) else None
  | _, _ => None
  end.

Definition toy_getUserIDs (k : Z) : list jsstring :=
  if k =? 7 then [js "Alice <alice@example.com>"; js "<old@example.com>"]
  else if k =? 9 then [js "no address"]
  else [].

#[export] Instance toy_keys : ClientKeys.OpenPGPKeys (pgp := toy_pgp) := {|
  ClientKeys.generateKey := toy_generateKey;
  ClientKeys.getUserIDs := toy_getUserIDs;
  ClientKeys.armor := fun k => [k]
|}.

(** A message of the toy instance that carries its file name: the
    instance with binary messages made of the recipient, the signer, the
    length of the name, the name and the content. *)
Definition named_encrypt (m : toy_message) (k : Z) (sk : option (Z * bool))
    (seed : unit) : option Buffer :=
  match signer_code sk, fname m with
  | Some sg, Some f =>
      Some (byte_of_Z k :: byte_of_Z sg ::
            byte_of_Z (Z.of_nat (List.length f)) ::
            map byte_of_Z f ++ bin m)
  | _, _ => None
  end.

Definition named_read (b : Buffer) : option toy_message :=
  match b with
  | k :: sg :: n :: body =>
      let len := Z.to_nat (byte_val n) in
      Some {| recipient := Some (byte_val k);
              signer := signer_of (byte_val sg); text := [];
              bin := skipn len body;
              fname := Some (map byte_val (firstn len body)) |}
  | _ => None
  end.

Definition toy_files : Client.OpenPGP := {|
  Client.Key := Z;
  Client.PrivateKey := Z * bool;
  Client.Message := toy_message;
  Client.Signature := bool;
  Client.Seed := unit;
  Client.readKey := toy_readKey;
  Client.readPrivateKey := toy_readPrivateKey;
  Client.decryptKey := toy_decryptKey;
  Client.createMessage_text := fun t =>
    Some {| recipient := None; signer := None; text := t; bin := [];
            fname := None |};
  Client.createMessage_binary := fun b f =>
    Some {| recipient := None; signer := None; text := []; bin := b;
            fname := Some f |};
  Client.readMessage_armored := toy_readMessage_armored;
  Client.readMessage_binary := named_read;
  Client.encrypt_armored := toy_encrypt_armored;
  Client.encrypt_binary := named_encrypt;
  Client.decrypt_utf8 := toy_decrypt text;
  Client.decrypt_binary := toy_decrypt bin;
  Client.verified := fun s => s
|}.

End ToyKeys.

(** ** The toy OpenPGP instance, with literal data packets

    A text message holds the bytes of its literal data packet, and its
    armor is the recipient, the signer and the values of these bytes. *)

Module ToyText.

Import ToyPGP.

Definition text_encrypt (m : toy_message) (k : Z) (sk : option (Z * bool))
    (seed : unit) : option jsstring :=
  match signer_code sk with
  | Some sg => Some (k :: sg :: map byte_val (bin m))
  | None => None
  end.

Definition text_read (s : jsstring) : option toy_message :=
  match s with
  | k :: sg :: body =>
      Some {| recipient := Some k; signer := signer_of sg; text := [];
              bin := map byte_of_Z body; fname := None |}
  | _ => None
  end.

Definition toy_text : Client.OpenPGP := {|
  Client.Key := Z;
  Client.PrivateKey := Z * bool;
  Client.Message := toy_message;
  Client.Signature := bool;
  Client.Seed := unit;
  Client.readKey := toy_readKey;
  Client.readPrivateKey := toy_readPrivateKey;
  Client.decryptKey := toy_decryptKey;
  Client.createMessage_text := fun t =>
    Some {| recipient := None; signer := None; text := [];
            bin := Literal.getBytes t; fname := None |};
  Client.createMessage_binary := fun b f =>
    Some {| recipient := None; signer := None; text := []; bin := b;
            fname := Some f |};
  Client.readMessage_armored := text_read;
  Client.readMessage_binary := toy_readMessage_binary;
  Client.encrypt_armored := text_encrypt;
  Client.encrypt_binary := toy_encrypt_binary;
  Client.decrypt_utf8 := toy_decrypt (fun m => Literal.getText (bin m));
  Client.decrypt_binary := toy_decrypt bin;
  Client.verified := fun s => s
|}.

End ToyText.

(** * Properties *)

(** ** Bytes *)

Lemma cons_inj {A : Type} (a b : A) (l m : list A) :
  a :: l = b :: m -> a = b /\ l = m.
Proof. intros H. injection H as Ha Hl. split; assumption. Qed.

Lemma quad_inj {A B C D : Type} (a a' : A) (b b' : B) (c c' : C) (d d' : D) :
  (a, b, c, d) = (a', b', c', d') -> a = a' /\ b = b' /\ c = c' /\ d = d'.
Proof. intros H. injection H as Ha Hb Hc Hd. repeat split; assumption. Qed.

Lemma byte_val_range (b : byte) : 0 <= byte_val b < 256.
Proof.
  unfold byte_val. pose proof (Byte.to_N_bounded b). lia.
Qed.

Lemma byte_of_val (b : byte) : byte_of_Z (byte_val b) = b.
Proof.
  unfold byte_of_Z, byte_val. rewrite N2Z.id, Byte.of_to_N. reflexivity.
Qed.

Lemma byte_val_of (z : Z) : 0 <= z < 256 -> byte_val (byte_of_Z z) = z.
Proof.
  intros Hz. unfold byte_of_Z, byte_val.
  destruct (Byte.of_N (Z.to_N z)) as [b|] eqn:E.
  - apply Byte.to_of_N in E. rewrite E. lia.
  - apply Byte.of_N_None_iff in E. lia.
Qed.

Lemma bytes_eqb_refl (a : Buffer) : bytes_eqb a a = true.
Proof.
  induction a as [|x a IH]; simpl; [reflexivity|].
  unfold byte_eqb. rewrite (Byte.byte_dec_lb eq_refl). exact IH.
Qed.

Lemma bytes_eqb_eq (a b : Buffer) : bytes_eqb a b = true <-> a = b.
Proof.
  split; [|intros ->; apply bytes_eqb_refl].
  revert b. induction a as [|x a IH]; intros [|y b]; simpl; try discriminate.
  - reflexivity.
  - intros H. apply andb_true_iff in H as [Hxy Hab].
    apply Byte.byte_dec_bl in Hxy. f_equal; [exact Hxy | apply IH, Hab].
Qed.

Lemma bytes_eqb_neq (a b : Buffer) : a <> b -> bytes_eqb a b = false.
Proof.
  intros Hne. destruct (bytes_eqb a b) eqn:E; [|reflexivity].
  apply bytes_eqb_eq in E. contradiction.
Qed.

(** ** The ['hex'] encoding *)

Module HexFacts.

Import Hex.

Lemma unhex_byte_digit (d : Z) :
  0 <= d < 16 -> unhex_byte (digit d) = Some d.
Proof.
  intros Hd. unfold unhex_byte, digit.
  destruct (Z.ltb_spec d 10).
  - replace ((48 <=? 48 + d) && (48 + d <=? 57)) with true
      by (symmetry; apply andb_true_iff; split; apply Z.leb_le; lia).
    f_equal. lia.
  - replace ((48 <=? 87 + d) && (87 + d <=? 57)) with false
      by (symmetry; apply andb_false_iff; right; apply Z.leb_gt; lia).
    replace ((97 <=? 87 + d) && (87 + d <=? 102)) with true
      by (symmetry; apply andb_true_iff; split; apply Z.leb_le; lia).
    f_equal. lia.
Qed.

Lemma unhex_digit (d : Z) : 0 <= d < 16 -> unhex (digit d) = Some d.
Proof.
  intros Hd. unfold unhex.
  rewrite Z.mod_small by (unfold digit; destruct (d <? 10); lia).
  apply unhex_byte_digit, Hd.
Qed.

Lemma unhex_byte_range (c h : Z) : unhex_byte c = Some h -> 0 <= h < 16.
Proof.
  unfold unhex_byte.
  destruct ((48 <=? c) && (c <=? 57)) eqn:E1;
    [|destruct ((97 <=? c) && (c <=? 102)) eqn:E2;
      [|destruct ((65 <=? c) && (c <=? 70)) eqn:E3]];
    intros H; inversion H; subst;
    match goal with
    | E : _ && _ = true |- _ =>
        apply andb_true_iff in E as [Ha Hb];
        apply Z.leb_le in Ha; apply Z.leb_le in Hb; lia
    end.
Qed.

Lemma unhex_range (c h : Z) : unhex c = Some h -> 0 <= h < 16.
Proof. apply unhex_byte_range. Qed.

Lemma high_nibble (x : byte) : 0 <= byte_val x / 16 < 16.
Proof.
  pose proof (byte_val_range x). split.
  - apply Z.div_pos; lia.
  - apply Z.div_lt_upper_bound; lia.
Qed.

Lemma low_nibble (x : byte) : 0 <= byte_val x mod 16 < 16.
Proof. apply Z.mod_pos_bound. lia. Qed.

Lemma nibbles (x : byte) :
  byte_of_Z (16 * (byte_val x / 16) + byte_val x mod 16) = x.
Proof.
  rewrite <- Z.div_mod by lia. apply byte_of_val.
Qed.

(** Decoding what was encoded gives the bytes back. *)
Lemma hex_decode_encode (b : Buffer) : decode (encode b) = b.
Proof.
  induction b as [|x b IH]; [reflexivity|].
  cbn [encode decode].
  rewrite (unhex_digit _ (high_nibble x)), (unhex_digit _ (low_nibble x)).
  rewrite nibbles, IH. reflexivity.
Qed.

Lemma encode_inj (a b : Buffer) : encode a = encode b -> a = b.
Proof.
  intros H. rewrite <- (hex_decode_encode a), <- (hex_decode_encode b), H.
  reflexivity.
Qed.

Lemma encode_length (b : Buffer) :
  List.length (encode b) = (2 * List.length b)%nat.
Proof.
  induction b as [|x b IH]; [reflexivity|].
  cbn [encode List.length]. rewrite IH. lia.
Qed.

(** Induction on a string, two characters at a time. *)
Lemma pair_ind (P : jsstring -> Prop) :
  P [] ->
  (forall a, P [a]) ->
  (forall a b s, P s -> P (a :: b :: s)) ->
  forall s, P s.
Proof.
  intros H0 H1 H2.
  assert (H : forall s, P s /\ forall a, P (a :: s)).
  { induction s as [|x s [IHs IHxs]]; split; auto. }
  intros s. apply H.
Qed.

(** Replacing a character by one with the same hexadecimal value does
    not change the decoded bytes. *)
Lemma decode_alter_same (s : jsstring) :
  forall i c,
    unhex c = unhex (nth i s 0) ->
    decode (Server.alter i c s) = decode s.
Proof.
  induction s as [|a|a b s IH] using pair_ind; intros i c Hc.
  - destruct i; reflexivity.
  - destruct i as [|[|i]]; reflexivity.
  - destruct i as [|[|i]]; cbn [Server.alter nth] in *.
    + cbn [decode]. rewrite Hc. reflexivity.
    + cbn [decode]. rewrite Hc. reflexivity.
    + cbn [decode]. rewrite (IH i c Hc). reflexivity.
Qed.

(** Replacing a character of an encoded buffer by one with another
    hexadecimal value, or by one that is not hexadecimal, changes the
    decoded bytes. *)
Lemma decode_alter_diff (b : Buffer) :
  forall i c,
    (i < List.length (encode b))%nat ->
    unhex c <> unhex (nth i (encode b) 0) ->
    decode (Server.alter i c (encode b)) <> b.
Proof.
  induction b as [|x b IH]; intros i c Hi Hc.
  - cbn in Hi. lia.
  - cbn [encode] in *.
    pose proof (unhex_digit _ (high_nibble x)) as Hh.
    pose proof (unhex_digit _ (low_nibble x)) as Hl.
    pose proof (high_nibble x) as Rh. pose proof (low_nibble x) as Rl.
    pose proof (byte_val_range x) as Rx.
    destruct i as [|[|i]]; cbn [Server.alter nth decode] in *.
    + rewrite Hh in Hc. rewrite Hl.
      destruct (unhex c) as [h|] eqn:E; [|discriminate].
      pose proof (unhex_range _ _ E) as Rc.
      intros Heq. apply cons_inj in Heq as [Hx Hb].
      apply (f_equal byte_val) in Hx.
      rewrite byte_val_of in Hx by lia.
      apply Hc. f_equal.
      rewrite (Z.div_mod (byte_val x) 16) in Hx at 2 by lia. lia.
    + rewrite Hl in Hc. rewrite Hh.
      destruct (unhex c) as [l|] eqn:E; [|discriminate].
      pose proof (unhex_range _ _ E) as Rc.
      intros Heq. apply cons_inj in Heq as [Hx Hb].
      apply (f_equal byte_val) in Hx.
      rewrite byte_val_of in Hx by lia.
      apply Hc. f_equal.
      rewrite (Z.div_mod (byte_val x) 16) in Hx at 2 by lia. lia.
    + rewrite Hh, Hl, nibbles.
      intros Heq. apply cons_inj in Heq as [_ Hb].
      apply (IH i c); [cbn [List.length] in Hi; lia | exact Hc | exact Hb].
Qed.

End HexFacts.

(** ** The ['utf8'] encoding *)

Module Utf8Facts.

Import Utf8.

Ltac zsolve := Z.div_mod_to_equations; lia.

(** Decide one comparison whose outcome follows from the context. *)
Ltac settle :=
  match goal with
  | |- context [Z.leb ?a ?b] =>
      first
        [ replace (Z.leb a b) with true
            by (symmetry; apply Z.leb_le; zsolve)
        | replace (Z.leb a b) with false
            by (symmetry; apply Z.leb_gt; zsolve) ]
  | |- context [Z.ltb ?a ?b] =>
      first
        [ replace (Z.ltb a b) with true
            by (symmetry; apply Z.ltb_lt; zsolve)
        | replace (Z.ltb a b) with false
            by (symmetry; apply Z.ltb_ge; zsolve) ]
  | |- context [Z.eqb ?a ?b] =>
      first
        [ replace (Z.eqb a b) with true
            by (symmetry; apply Z.eqb_eq; zsolve)
        | replace (Z.eqb a b) with false
            by (symmetry; apply Z.eqb_neq; zsolve) ]
  end.

Ltac step :=
  cbn [app decode_from lead emit fst snd andb point needed lower upper].

Lemma is_high_spec (c : Z) : is_high c = true <-> 0xD800 <= c <= 0xDBFF.
Proof.
  unfold is_high. rewrite andb_true_iff, !Z.leb_le. reflexivity.
Qed.

Lemma is_low_spec (c : Z) : is_low c = true <-> 0xDC00 <= c <= 0xDFFF.
Proof.
  unfold is_low. rewrite andb_true_iff, !Z.leb_le. reflexivity.
Qed.

Lemma is_high_false (c : Z) :
  is_high c = false <-> ~ (0xD800 <= c <= 0xDBFF).
Proof.
  rewrite <- is_high_spec. destruct (is_high c); split; congruence.
Qed.

Lemma is_low_false (c : Z) :
  is_low c = false <-> ~ (0xDC00 <= c <= 0xDFFF).
Proof.
  rewrite <- is_low_spec. destruct (is_low c); split; congruence.
Qed.

(** The bytes of a code point are bytes. *)
Lemma encode_point_range (cp : Z) :
  0 <= cp < 0x110000 ->
  Forall (fun b => 0 <= b < 256) (encode_point cp).
Proof.
  intros Hcp. unfold encode_point.
  destruct (Z.ltb_spec cp 0x80); [|destruct (Z.ltb_spec cp 0x800);
    [|destruct (Z.ltb_spec cp 0x10000)]];
    repeat constructor; zsolve.
Qed.

Ltac run := repeat (step; unfold lead, emit; repeat settle); step.

(** The decoder reads the bytes of a code point back. *)
Lemma decode_point (cp : Z) (rest : list Z) :
  scalar cp ->
  decode_from None (encode_point cp ++ rest) =
  emit cp ++ decode_from None rest.
Proof.
  intros [Hcp Hsur]. unfold encode_point.
  destruct (Z.ltb_spec cp 0x80); [|destruct (Z.ltb_spec cp 0x800);
    [|destruct (Z.ltb_spec cp 0x10000)]].
  - run. reflexivity.
  - run. f_equal. zsolve.
  - step. unfold lead. repeat settle.
    destruct (Z.eqb_spec (0xE0 + cp / 4096) 0xE0);
      destruct (Z.eqb_spec (0xE0 + cp / 4096) 0xED);
      run; try (exfalso; lia); repeat f_equal; zsolve.
  - step. unfold lead. repeat settle.
    destruct (Z.eqb_spec (0xF0 + cp / 262144) 0xF0);
      destruct (Z.eqb_spec (0xF0 + cp / 262144) 0xF4);
      run; try (exfalso; lia); repeat f_equal; zsolve.
Qed.

Lemma emit_unit (c : Z) : c < 0x10000 -> emit c = [c].
Proof. intros Hc. unfold emit. settle. reflexivity. Qed.

Lemma pair_point_scalar (hi lo : Z) :
  is_high hi = true -> is_low lo = true -> scalar (pair_point hi lo).
Proof.
  rewrite is_high_spec, is_low_spec. unfold scalar, pair_point. lia.
Qed.

Lemma emit_pair (hi lo : Z) :
  is_high hi = true -> is_low lo = true ->
  emit (pair_point hi lo) = [hi; lo].
Proof.
  rewrite is_high_spec, is_low_spec. intros Hh Hl.
  unfold emit, pair_point. settle. repeat f_equal; zsolve.
Qed.

(** A well-formed string is read back from its UTF-8 byte values. *)
Lemma decode_encode_units (n : nat) :
  forall s,
    (List.length s <= n)%nat ->
    well_formed s = true ->
    decode_from None (encode_units s) = s.
Proof.
  induction n as [|n IH]; intros [|c rest] Hlen Hwf;
    try reflexivity; cbn [List.length] in Hlen; [lia|].
  cbn [well_formed encode_units] in *.
  destruct (is_high c) eqn:Hhigh.
  - destruct rest as [|d rest]; [discriminate|].
    apply andb_true_iff in Hwf as [Hlow Hwf]. rewrite Hlow.
    rewrite decode_point by (apply pair_point_scalar; assumption).
    rewrite emit_pair by assumption.
    cbn [List.length] in Hlen. rewrite IH by (assumption || lia).
    reflexivity.
  - destruct (is_low c) eqn:Hlow; [discriminate|].
    apply andb_true_iff in Hwf as [Hc Hwf].
    apply andb_true_iff in Hc as [Hc0 Hc1].
    apply Z.leb_le in Hc0. apply Z.ltb_lt in Hc1.
    apply is_high_false in Hhigh. apply is_low_false in Hlow.
    rewrite decode_point by (unfold scalar; lia).
    rewrite emit_unit by lia.
    rewrite IH by (assumption || lia). reflexivity.
Qed.

Lemma encode_units_range (n : nat) :
  forall s,
    (List.length s <= n)%nat ->
    well_formed s = true ->
    Forall (fun b => 0 <= b < 256) (encode_units s).
Proof.
  induction n as [|n IH]; intros [|c rest] Hlen Hwf;
    try apply Forall_nil; cbn [List.length] in Hlen; [lia|].
  cbn [well_formed encode_units] in *.
  destruct (is_high c) eqn:Hhigh.
  - destruct rest as [|d rest]; [discriminate|].
    apply andb_true_iff in Hwf as [Hlow Hwf]. rewrite Hlow.
    apply Forall_app. split.
    + apply encode_point_range.
      apply (pair_point_scalar c d); assumption.
    + cbn [List.length] in Hlen. apply IH; [lia | assumption].
  - destruct (is_low c) eqn:Hlow; [discriminate|].
    apply andb_true_iff in Hwf as [Hc Hwf].
    apply andb_true_iff in Hc as [Hc0 Hc1].
    apply Z.leb_le in Hc0. apply Z.ltb_lt in Hc1.
    apply Forall_app. split.
    + apply encode_point_range. lia.
    + apply IH; [lia | assumption].
Qed.

Lemma byte_values (l : list Z) :
  Forall (fun b => 0 <= b < 256) l ->
  map byte_val (map byte_of_Z l) = l.
Proof.
  induction 1 as [|b l Hb _ IH]; [reflexivity|].
  cbn [map]. rewrite byte_val_of by exact Hb. rewrite IH. reflexivity.
Qed.

(** [Buffer.from(s, 'utf8').toString('utf8')] is [s] for every
    well-formed string [s]. *)
Lemma utf8_decode_encode (s : jsstring) :
  well_formed s = true -> decode (encode s) = s.
Proof.
  intros Hwf. unfold decode, encode.
  rewrite byte_values by (apply (encode_units_range (List.length s)); auto).
  apply (decode_encode_units (List.length s)); auto.
Qed.

End Utf8Facts.

(** ** Slices of a concatenation *)

Lemma firstn_exact {A : Type} (a b : list A) (n : nat) :
  List.length a = n -> firstn n (a ++ b) = a.
Proof.
  intros <-. rewrite firstn_app, Nat.sub_diag, firstn_all.
  cbn [firstn]. apply app_nil_r.
Qed.

Lemma skipn_exact {A : Type} (a b : list A) (n : nat) :
  List.length a = n -> skipn n (a ++ b) = b.
Proof.
  intros <-. rewrite skipn_app, Nat.sub_diag, skipn_all. reflexivity.
Qed.

Lemma skipn_exact2 {A : Type} (a b c : list A) (n m : nat) :
  List.length a = n -> List.length b = m ->
  skipn (n + m) (a ++ b ++ c) = c.
Proof.
  intros Ha Hb. rewrite Nat.add_comm, <- skipn_skipn.
  rewrite (skipn_exact a _ n Ha). apply skipn_exact, Hb.
Qed.

Lemma skipn_exact3 {A : Type} (a b c d : list A) (n m k : nat) :
  List.length a = n -> List.length b = m -> List.length c = k ->
  skipn (n + m + k) (a ++ b ++ c ++ d) = d.
Proof.
  intros Ha Hb Hc. rewrite Nat.add_comm, <- skipn_skipn.
  rewrite (skipn_exact2 a b _ n m Ha Hb). apply skipn_exact, Hc.
Qed.

Lemma slices_rebuild {A : Type} (b : list A) (n m k : nat) :
  firstn (n - 0) (skipn 0 b) ++
  firstn (n + m - n) (skipn n b) ++
  firstn (n + m + k - (n + m)) (skipn (n + m) b) ++
  skipn (n + m + k) b = b.
Proof.
  replace (n - 0)%nat with n by lia.
  replace (n + m - n)%nat with m by lia.
  replace (n + m + k - (n + m))%nat with k by lia.
  replace (n + m + k)%nat with (k + (n + m))%nat by lia.
  rewrite <- (skipn_skipn k (n + m) b), firstn_skipn.
  replace (n + m)%nat with (m + n)%nat by lia.
  rewrite <- (skipn_skipn m n b), firstn_skipn.
  cbn [skipn]. apply firstn_skipn.
Qed.

(** ** The toy instance obeys the contract *)

Module ToyFacts.

Import Server Server.Toy.

Lemma toy_random_length : random_length.
Proof. intros n g. apply repeat_length. Qed.

Lemma toy_pbkdf2_length : pbkdf2_length.
Proof. intros password salt iters keylen dig. apply repeat_length. Qed.

Lemma toy_gcm_seals : gcm_seals.
Proof.
  intros key iv plaintext Hkey Hiv.
  exists (rev plaintext), (toy_tag key iv (rev plaintext)).
  split; [|apply repeat_length].
  cbn. unfold toy_seal. rewrite Hkey, Hiv. reflexivity.
Qed.

Lemma toy_gcm_opens : gcm_opens.
Proof.
  intros key iv plaintext ciphertext tag. cbn. unfold toy_seal, toy_open.
  destruct (Nat.eqb (List.length key) 32 && negb (Nat.eqb (List.length iv) 0));
    [|discriminate].
  intros H. injection H as <- <-.
  rewrite bytes_eqb_refl, rev_involutive. reflexivity.
Qed.

End ToyFacts.

(** ** Properties of encryption.service.ts *)

Module ServerSpec.

Import Server.

Lemma ok_inj {A : Type} (a b : A) : Ok a = Ok b -> a = b.
Proof. intros H. injection H as H. exact H. Qed.

Section Facts.

Context {crypto : NodeCrypto}.
Variable secret : jsstring.

Hypothesis Hrandom : random_length.
Hypothesis Hkdf : pbkdf2_length.
Hypothesis Hseals : gcm_seals.
Hypothesis Hopens : gcm_opens.

(** The slices of [decrypt] on an envelope with fields of the
    expected lengths. *)
Lemma fields_of_envelope (salt iv tag ciphertext : Buffer) :
  List.length salt = saltLength ->
  List.length iv = ivLength ->
  List.length tag = tagLength ->
  decrypt_fields (Hex.encode (salt ++ iv ++ tag ++ ciphertext)) =
  (salt, iv, tag, ciphertext).
Proof.
  intros Hsalt Hiv Htag. unfold decrypt_fields.
  rewrite HexFacts.hex_decode_encode.
  unfold Buf.slice, Buf.slice_from.
  rewrite (skipn_exact3 salt iv tag ciphertext _ _ _ Hsalt Hiv Htag).
  rewrite (skipn_exact2 salt iv _ _ _ Hsalt Hiv).
  rewrite (skipn_exact salt _ _ Hsalt).
  replace (saltLength + ivLength + tagLength - (saltLength + ivLength))%nat
    with tagLength by reflexivity.
  replace (saltLength + ivLength - saltLength)%nat
    with ivLength by reflexivity.
  rewrite (firstn_exact tag _ _ Htag), (firstn_exact iv _ _ Hiv).
  cbn [skipn]. rewrite Nat.sub_0_r, (firstn_exact salt _ _ Hsalt).
  reflexivity.
Qed.

(** What a call of [encrypt] does: it draws the IV, then the salt,
    derives the key, seals the UTF-8 bytes of the data and returns the
    four fields in hexadecimal. *)
Lemma encrypt_spec (data : jsstring) (g : entropy) :
  exists iv g1 salt g2 ciphertext tag,
    randomBytes ivLength g = (iv, g1) /\
    randomBytes saltLength g1 = (salt, g2) /\
    seal algorithm (pbkdf2Sync secret salt iterations keyLength digest)
      iv (Utf8.encode data) = Some (ciphertext, tag) /\
    List.length salt = saltLength /\
    List.length iv = ivLength /\
    List.length tag = tagLength /\
    encrypt secret data g =
    (Ok (Hex.encode (salt ++ iv ++ tag ++ ciphertext)), g2).
Proof.
  unfold encrypt.
  pose proof (Hrandom ivLength g) as Hiv.
  destruct (randomBytes ivLength g) as [iv g1] eqn:Eiv.
  pose proof (Hrandom saltLength g1) as Hsalt.
  destruct (randomBytes saltLength g1) as [salt g2] eqn:Esalt.
  cbn [fst] in Hiv, Hsalt.
  destruct (Hseals (pbkdf2Sync secret salt iterations keyLength digest)
              iv (Utf8.encode data)) as (ciphertext & tag & Hseal & Htag);
    [apply Hkdf | exact Hiv |].
  exists iv, g1, salt, g2, ciphertext, tag.
  rewrite Hseal, HexFacts.hex_decode_encode.
  unfold Buf.concat. cbn [List.concat]. rewrite app_nil_r.
  repeat split; assumption || reflexivity.
Qed.

(** [decrypt] hands the four slices to the decipher and returns a
    string only when the decipher accepts them; otherwise it throws
    its one error. *)
Lemma decrypt_fail_closed (encryptedData : jsstring) :
  decrypt secret encryptedData =
  let '(salt, iv, tag, encrypted) := decrypt_fields encryptedData in
  match open algorithm
          (pbkdf2Sync secret salt iterations keyLength digest)
          iv tag encrypted with
  | Some plaintext => Ok (Utf8.decode plaintext)
  | None =>
      Throw {| statusCode := INTERNAL_SERVER_ERROR;
               message := "Failed to decrypt data" |}
  end.
Proof.
  unfold decrypt.
  destruct (decrypt_fields encryptedData) as [[[salt iv] tag] encrypted].
  rewrite HexFacts.hex_decode_encode. reflexivity.
Qed.

(** The four slices determine the decoded envelope. *)
Lemma fields_determine_bytes (e1 e2 : jsstring) :
  decrypt_fields e1 = decrypt_fields e2 ->
  Hex.decode e1 = Hex.decode e2.
Proof.
  unfold decrypt_fields, Buf.slice, Buf.slice_from. intros H.
  pose proof (slices_rebuild (Hex.decode e1)
                saltLength ivLength tagLength) as R1.
  pose proof (slices_rebuild (Hex.decode e2)
                saltLength ivLength tagLength) as R2.
  apply quad_inj in H as (Hsalt & Hiv & Htag & Hrest).
  rewrite Hsalt, Hiv, Htag, Hrest in R1.
  rewrite <- R1. exact R2.
Qed.

(** Decrypting an envelope gives the string that Node reads back from
    the UTF-8 bytes of the data. *)
Lemma decrypt_encrypt_utf8 (data : jsstring) (g : entropy) :
  exists envelope,
    fst (encrypt secret data g) = Ok envelope /\
    decrypt secret envelope = Ok (Utf8.decode (Utf8.encode data)).
Proof.
  destruct (encrypt_spec data g)
    as (iv & g1 & salt & g2 & ciphertext & tag &
        _ & _ & Hseal & Hsalt & Hiv & Htag & Henc).
  exists (Hex.encode (salt ++ iv ++ tag ++ ciphertext)).
  rewrite Henc. split; [reflexivity|].
  rewrite decrypt_fail_closed, fields_of_envelope by assumption.
  rewrite (Hopens _ _ _ _ _ Hseal). reflexivity.
Qed.

(** Decrypting the envelope of a well-formed string gives it back. *)
Lemma decrypt_encrypt_wf (data : jsstring) (g : entropy) :
  Utf8.well_formed data = true ->
  exists envelope,
    fst (encrypt secret data g) = Ok envelope /\
    decrypt secret envelope = Ok data.
Proof.
  intros Hwf.
  destruct (decrypt_encrypt_utf8 data g) as (envelope & Henc & Hdec).
  exists envelope. split; [exact Henc|].
  rewrite Hdec, Utf8Facts.utf8_decode_encode by exact Hwf. reflexivity.
Qed.

(** An unpaired surrogate comes back as U+FFFD, whatever the
    primitives are. *)
Lemma lone_surrogate_replaced (g : entropy) :
  exists envelope,
    fst (encrypt secret [0xD800] g) = Ok envelope /\
    decrypt secret envelope = Ok [0xFFFD].
Proof. exact (decrypt_encrypt_utf8 [0xD800] g). Qed.

(** The envelope is made of the four fields, and [decrypt] slices
    them back. *)
Lemma encrypt_layout (P : jsstring) (g : entropy) :
  exists salt iv tag ciphertext,
    draws g = (iv, salt) /\
    seal algorithm (pbkdf2Sync secret salt iterations keyLength digest)
      iv (Utf8.encode P) = Some (ciphertext, tag) /\
    fst (encrypt secret P g) =
      Ok (Hex.encode (Buf.concat [salt; iv; tag; ciphertext])) /\
    List.length salt = 64%nat /\
    List.length iv = 16%nat /\
    List.length tag = 16%nat /\
    decrypt_fields
      (Hex.encode (Buf.concat [salt; iv; tag; ciphertext])) =
    (salt, iv, tag, ciphertext).
Proof.
  destruct (encrypt_spec P g)
    as (iv & g1 & salt & g2 & ciphertext & tag &
        Hdiv & Hdsalt & Hseal & Hsalt & Hiv & Htag & Henc).
  exists salt, iv, tag, ciphertext.
  unfold Buf.concat. cbn [List.concat]. rewrite app_nil_r.
  repeat split; try assumption.
  - unfold draws. rewrite Hdiv, Hdsalt. reflexivity.
  - rewrite Henc. reflexivity.
  - apply fields_of_envelope; assumption.
Qed.

(** C9 (as amended): two calls of [encrypt] on the same well-formed
    plaintext whose draws of IV and salt differ return two different
    envelopes, and both envelopes decrypt to the plaintext. *)
Theorem encrypt_twice_differs (P : jsstring) (g1 g2 : entropy) :
  Utf8.well_formed P = true ->
  draws g1 <> draws g2 ->
  exists e1 e2,
    fst (encrypt secret P g1) = Ok e1 /\
    fst (encrypt secret P g2) = Ok e2 /\
    e1 <> e2 /\
    decrypt secret e1 = Ok P /\
    decrypt secret e2 = Ok P.
Proof.
  intros Hwf Hfresh.
  destruct (encrypt_layout P g1)
    as (salt1 & iv1 & tag1 & c1 & Hd1 & _ & He1 & _ & _ & _ & Hf1).
  destruct (encrypt_layout P g2)
    as (salt2 & iv2 & tag2 & c2 & Hd2 & _ & He2 & _ & _ & _ & Hf2).
  destruct (decrypt_encrypt_wf P g1 Hwf) as (e1 & He1' & Hdec1).
  destruct (decrypt_encrypt_wf P g2 Hwf) as (e2 & He2' & Hdec2).
  exists e1, e2. repeat split; try assumption.
  intros Heq. apply Hfresh.
  rewrite He1 in He1'. rewrite He2 in He2'.
  apply ok_inj in He1'. apply ok_inj in He2'. subst e1 e2.
  rewrite Heq, Hf2 in Hf1.
  apply quad_inj in Hf1 as (-> & -> & _ & _).
  rewrite Hd1, Hd2. reflexivity.
Qed.

(** What a call of [hash] does: it draws the salt and returns salt
    and derived key in hexadecimal. *)
Lemma hash_spec (data : jsstring) (g : entropy) :
  exists salt g',
    randomBytes saltLength g = (salt, g') /\
    List.length salt = saltLength /\
    hash data g =
    (Ok (Hex.encode
           (salt ++ pbkdf2Sync data salt iterations keyLength digest)),
     g').
Proof.
  unfold hash.
  pose proof (Hrandom saltLength g) as Hsalt.
  destruct (randomBytes saltLength g) as [salt g'] eqn:Esalt.
  exists salt, g'. cbn [fst] in Hsalt.
  unfold Buf.concat. cbn [List.concat]. rewrite app_nil_r.
  repeat split; assumption || reflexivity.
Qed.

(** [verifyHash] on a stored string made of a salt and a key. *)
Lemma verifyHash_stored (data : jsstring) (salt h : Buffer) :
  List.length salt = saltLength ->
  verifyHash data (Hex.encode (salt ++ h)) =
  match
    timingSafeEqual (pbkdf2Sync data salt iterations keyLength digest) h
  with
  | Some b => Ok b
  | None =>
      Throw {| statusCode := INTERNAL_SERVER_ERROR;
               message := "Failed to verify hash" |}
  end.
Proof.
  intros Hsalt. unfold verifyHash.
  rewrite HexFacts.hex_decode_encode.
  unfold Buf.slice, Buf.slice_from.
  rewrite (skipn_exact salt h _ Hsalt).
  cbn [skipn]. rewrite Nat.sub_0_r, (firstn_exact salt h _ Hsalt).
  reflexivity.
Qed.

(** [verifyHash(D, hash(D2))] compares the keys derived from [D] and
    from [D2] under the salt drawn by [hash]. *)
Lemma verifyHash_compares_keys (D D2 : jsstring) (g : entropy) :
  exists stored,
    fst (hash D2 g) = Ok stored /\
    let salt := fst (randomBytes saltLength g) in
    let key d := pbkdf2Sync d salt iterations keyLength digest in
    verifyHash D stored = Ok (bytes_eqb (key D) (key D2)).
Proof.
  destruct (hash_spec D2 g) as (salt & g' & Hdraw & Hsalt & Hhash).
  eexists. rewrite Hhash, Hdraw. cbn [fst]. split; [reflexivity|].
  cbv zeta. rewrite (verifyHash_stored D salt _ Hsalt).
  unfold timingSafeEqual, pbkdf2Sync. rewrite !Hkdf, Nat.eqb_refl.
  reflexivity.
Qed.

(** Two different strings made of one unpaired surrogate each verify
    against each other's hash, whatever the primitives are. *)
Lemma surrogates_verify (g : entropy) :
  exists stored,
    fst (hash [0xDC00] g) = Ok stored /\
    verifyHash [0xD800] stored = Ok true.
Proof.
  destruct (verifyHash_compares_keys [0xD800] [0xDC00] g)
    as (stored & Hhash & Hverify).
  exists stored. split; [exact Hhash|].
  cbv zeta in Hverify. rewrite Hverify.
  unfold pbkdf2Sync.
  change (Utf8.encode [0xD800]) with (Utf8.encode [0xDC00]).
  rewrite bytes_eqb_refl. reflexivity.
Qed.


(** C1 (as amended): for every well-formed plaintext [P] (no unpaired
    surrogate) and every secret, [encrypt] returns an envelope, and
    [decrypt] of that envelope with the same secret returns [P]. *)
Theorem decrypt_encrypt_roundtrip (P : jsstring) (g : entropy) :
  Utf8.well_formed P = true ->
  exists envelope,
    fst (encrypt secret P g) = Ok envelope /\
    decrypt secret envelope = Ok P.
Proof. apply decrypt_encrypt_wf. Qed.

(** C7: [encrypt] returns one string, the hexadecimal encoding of
    salt, IV, tag and ciphertext in this order, with 64, 16 and 16
    bytes for the first three; the slices taken by [decrypt] from
    that string are these four fields. *)
Theorem envelope_layout (P : jsstring) (g : entropy) :
  exists salt iv tag ciphertext,
    draws g = (iv, salt) /\
    seal algorithm (pbkdf2Sync secret salt iterations keyLength digest)
      iv (Utf8.encode P) = Some (ciphertext, tag) /\
    fst (encrypt secret P g) =
      Ok (Hex.encode (Buf.concat [salt; iv; tag; ciphertext])) /\
    List.length salt = 64%nat /\
    List.length iv = 16%nat /\
    List.length tag = 16%nat /\
    decrypt_fields
      (Hex.encode (Buf.concat [salt; iv; tag; ciphertext])) =
    (salt, iv, tag, ciphertext).
Proof. apply encrypt_layout. Qed.

(** C8 (as amended): [verifyHash(D, hash(D))] is [true] for every
    [D]; [verifyHash(D, hash(D2))] is [false] when PBKDF2 derives
    different keys from the UTF-8 bytes of [D] and of [D2] under the
    stored salt, and [true] when it derives the same key. *)
Theorem verifyHash_hash (D D2 : jsstring) (g : entropy) :
  exists stored,
    fst (hash D2 g) = Ok stored /\
    let salt := fst (randomBytes saltLength g) in
    let key d := pbkdf2Sync d salt iterations keyLength digest in
    (D = D2 -> verifyHash D stored = Ok true) /\
    (key D <> key D2 -> verifyHash D stored = Ok false) /\
    (key D = key D2 -> verifyHash D stored = Ok true).
Proof.
  destruct (verifyHash_compares_keys D D2 g)
    as (stored & Hhash & Hverify).
  exists stored. split; [exact Hhash|].
  cbv zeta in *. rewrite Hverify. repeat split.
  - intros ->. rewrite bytes_eqb_refl. reflexivity.
  - intros Hne. rewrite (bytes_eqb_neq _ _ Hne). reflexivity.
  - intros ->. rewrite bytes_eqb_refl. reflexivity.
Qed.

End Facts.

(** *** The theorems on concrete data *)

Import Server.Toy ToyFacts.

(** The round trip of ["secret-token"] under ["shared-secret"]. *)
Lemma decrypt_encrypt_roundtrip_witness :
  exists envelope,
    fst (encrypt (crypto := toy_crypto) (js "shared-secret")
           (js "secret-token") 0%nat) = Ok envelope /\
    decrypt (js "shared-secret") envelope = Ok (js "secret-token").
Proof.
  apply (decrypt_encrypt_roundtrip (crypto := toy_crypto) (js "shared-secret")
           toy_random_length toy_pbkdf2_length toy_gcm_seals
           toy_gcm_opens (js "secret-token") 0%nat).
  reflexivity.
Defined.

(** C1, as stated, fails on a plaintext made of one unpaired
    surrogate: the envelope decrypts to U+FFFD. *)
Lemma decrypt_encrypt_lone_surrogate :
  exists envelope,
    fst (encrypt (crypto := toy_crypto) (js "shared-secret") [0xD800] 0%nat) =
      Ok envelope /\
    decrypt (js "shared-secret") envelope = Ok [0xFFFD] /\
    decrypt (js "shared-secret") envelope <> Ok [0xD800].
Proof.
  eexists. split; [vm_compute; reflexivity|].
  split; [vm_compute; reflexivity | vm_compute; discriminate].
Qed.

(** The layout of the envelope of ["secret-token"]. *)
Lemma envelope_layout_witness :
  exists salt iv tag ciphertext,
    draws (crypto := toy_crypto) 0%nat = (iv, salt) /\
    seal algorithm
      (pbkdf2Sync (js "shared-secret") salt iterations keyLength digest)
      iv (Utf8.encode (js "secret-token")) = Some (ciphertext, tag) /\
    fst (encrypt (js "shared-secret") (js "secret-token") 0%nat) =
      Ok (Hex.encode (Buf.concat [salt; iv; tag; ciphertext])) /\
    List.length salt = 64%nat /\
    List.length iv = 16%nat /\
    List.length tag = 16%nat /\
    decrypt_fields (Hex.encode (Buf.concat [salt; iv; tag; ciphertext])) =
    (salt, iv, tag, ciphertext).
Proof.
  exact (envelope_layout (crypto := toy_crypto) (js "shared-secret")
           toy_random_length toy_pbkdf2_length toy_gcm_seals
           (js "secret-token") 0%nat).
Defined.

(** Two calls in the entropy states 0 and 2, the states of two calls
    in a row. *)
Lemma encrypt_twice_differs_witness :
  exists e1 e2,
    fst (encrypt (crypto := toy_crypto) (js "shared-secret")
           (js "secret-token") 0%nat) = Ok e1 /\
    fst (encrypt (crypto := toy_crypto) (js "shared-secret")
           (js "secret-token") 2%nat) = Ok e2 /\
    e1 <> e2 /\
    decrypt (js "shared-secret") e1 = Ok (js "secret-token") /\
    decrypt (js "shared-secret") e2 = Ok (js "secret-token").
Proof.
  apply (encrypt_twice_differs (crypto := toy_crypto) (js "shared-secret")
           toy_random_length toy_pbkdf2_length toy_gcm_seals
           toy_gcm_opens (js "secret-token") 0%nat 2%nat).
  - reflexivity.
  - vm_compute. discriminate.
Defined.

(** C9, as stated, fails on a plaintext made of one unpaired
    surrogate: the two envelopes differ, and neither decrypts to the
    plaintext. *)
Lemma encrypt_twice_lone_surrogate :
  exists e1 g e2,
    encrypt (crypto := toy_crypto) (js "shared-secret") [0xD800] 0%nat =
      (Ok e1, g) /\
    fst (encrypt (js "shared-secret") [0xD800] g) = Ok e2 /\
    e1 <> e2 /\
    decrypt (js "shared-secret") e1 <> Ok [0xD800] /\
    decrypt (js "shared-secret") e2 <> Ok [0xD800].
Proof.
  eexists. eexists. eexists.
  split; [vm_compute; reflexivity|].
  split; [vm_compute; reflexivity|].
  repeat split; vm_compute; discriminate.
Qed.

(** The hash of ["hunter2"] checked against ["hunter3"]. *)
Lemma verifyHash_hash_witness :
  exists stored,
    fst (hash (crypto := toy_crypto) (js "hunter2") 0%nat) = Ok stored /\
    let salt := fst (randomBytes (NodeCrypto := toy_crypto) saltLength 0%nat) in
    let key d := pbkdf2Sync d salt iterations keyLength digest in
    (js "hunter3" = js "hunter2" ->
     verifyHash (js "hunter3") stored = Ok true) /\
    (key (js "hunter3") <> key (js "hunter2") ->
     verifyHash (js "hunter3") stored = Ok false) /\
    (key (js "hunter3") = key (js "hunter2") ->
     verifyHash (js "hunter3") stored = Ok true).
Proof.
  exact (verifyHash_hash (crypto := toy_crypto)
           toy_random_length toy_pbkdf2_length
           (js "hunter3") (js "hunter2") 0%nat).
Defined.

(** C8, as stated, fails on two different strings made of one unpaired
    surrogate each: Node writes the same UTF-8 bytes for both, and the
    hash of one verifies the other. *)
Lemma verifyHash_distinct_strings :
  exists stored,
    fst (hash (crypto := toy_crypto) [0xDC00] 0%nat) = Ok stored /\
    [0xD800] <> [0xDC00] /\
    verifyHash [0xD800] stored = Ok true.
Proof.
  eexists. split; [vm_compute; reflexivity|].
  split; [discriminate | vm_compute; reflexivity].
Qed.



End ServerSpec.

(** ** Text messages of OpenPGP.js *)

Module LiteralFacts.

Import Literal Utf8 Utf8Facts.

Lemma bytes_of_values (b : Buffer) : map byte_of_Z (map byte_val b) = b.
Proof.
  induction b as [|x b IH]; [reflexivity|].
  cbn [map]. rewrite byte_of_val, IH. reflexivity.
Qed.

Lemma starts_lf_canonical (p : bool) (b : Buffer) :
  starts_lf (map byte_val (canonical_from p b)) =
  p && starts_lf (map byte_val b).
Proof.
  destruct b as [|x rest]; cbn [canonical_from map starts_lf].
  - rewrite andb_false_r. reflexivity.
  - unfold is_lf. destruct (byte_val x =? 10) eqn:E; destruct p;
      cbn [andb negb map starts_lf]; try rewrite E; reflexivity.
Qed.

Lemma nativeEOL_cons (x : byte) (rest : Buffer) :
  nativeEOL (x :: rest) =
  if is_cr x && starts_lf (map byte_val rest) then nativeEOL rest
  else x :: nativeEOL rest.
Proof.
  destruct rest as [|y rest]; cbn [nativeEOL map starts_lf].
  - rewrite andb_false_r. reflexivity.
  - reflexivity.
Qed.

(** Bytes without CR LF come back from their canonical form. *)
Lemma native_canonical (b : Buffer) :
  forall p,
    no_crlf (map byte_val b) = true ->
    (p = true -> starts_lf (map byte_val b) = false) ->
    nativeEOL (canonical_from p b) = b.
Proof.
  induction b as [|x rest IH]; intros p Hfree Hp; [reflexivity|].
  cbn [map no_crlf] in Hfree.
  apply andb_true_iff in Hfree as [Hx Hrest].
  apply negb_true_iff in Hx.
  cbn [canonical_from]. unfold is_lf.
  destruct (byte_val x =? 10) eqn:Elf.
  - destruct p.
    + cbn [map starts_lf] in Hp. rewrite Hp in Elf by reflexivity.
      discriminate.
    + cbn [andb negb].
      rewrite nativeEOL_cons.
      replace (is_cr x0d) with true by reflexivity.
      cbn [map starts_lf andb]. rewrite Elf.
      rewrite nativeEOL_cons.
      apply Z.eqb_eq in Elf.
      unfold is_cr. rewrite Elf. cbn [Z.eqb andb].
      rewrite (IH false Hrest) by discriminate. reflexivity.
  - cbn [andb]. rewrite nativeEOL_cons, starts_lf_canonical.
    unfold is_cr in *.
    destruct (byte_val x =? 13) eqn:Ecr; cbn [andb] in *.
    + rewrite Hx. rewrite (IH true Hrest) by (intros _; exact Hx).
      reflexivity.
    + rewrite (IH false Hrest) by discriminate. reflexivity.
Qed.

Lemma starts_lf_encode_units (s : jsstring) :
  starts_lf (encode_units s) = starts_lf s.
Proof.
  destruct s as [|c rest]; [reflexivity|].
  cbn [encode_units starts_lf].
  destruct (is_high c) eqn:Hhigh.
  - apply is_high_spec in Hhigh.
    replace (c =? 10) with false by (symmetry; apply Z.eqb_neq; lia).
    destruct rest as [|d rest']; [reflexivity|].
    destruct (is_low d) eqn:Hlow; [|reflexivity].
    apply is_low_spec in Hlow.
    unfold encode_point, pair_point. repeat settle. cbn [app starts_lf].
    apply Z.eqb_neq. zsolve.
  - destruct (is_low c) eqn:Hlow.
    + apply is_low_spec in Hlow. cbn [replacement app starts_lf].
      symmetry. apply Z.eqb_neq. lia.
    + unfold encode_point.
      destruct (Z.ltb_spec c 0x80); [reflexivity|].
      replace (c =? 10) with false by (symmetry; apply Z.eqb_neq; lia).
      destruct (Z.ltb_spec c 0x800); [|destruct (Z.ltb_spec c 0x10000)];
        cbn [app starts_lf]; apply Z.eqb_neq; zsolve.
Qed.

Lemma encode_point_high (cp : Z) :
  0x80 <= cp -> Forall (fun b => 0x80 <= b) (encode_point cp).
Proof.
  intros Hcp. unfold encode_point.
  destruct (Z.ltb_spec cp 0x80); [lia|].
  destruct (Z.ltb_spec cp 0x800); [|destruct (Z.ltb_spec cp 0x10000)];
    repeat constructor; zsolve.
Qed.

Lemma no_crlf_high (bs l : list Z) :
  Forall (fun b => 0x80 <= b) bs -> no_crlf (bs ++ l) = no_crlf l.
Proof.
  induction 1 as [|x bs Hx _ IH]; [reflexivity|].
  cbn [app no_crlf].
  replace (x =? 13) with false by (symmetry; apply Z.eqb_neq; lia).
  cbn [andb negb]. exact IH.
Qed.

(** The UTF-8 byte values of a well-formed string without CR LF hold no
    CR LF. *)
Lemma no_crlf_encode_units (n : nat) :
  forall s,
    (List.length s <= n)%nat ->
    well_formed s = true ->
    no_crlf s = true ->
    no_crlf (encode_units s) = true.
Proof.
  induction n as [|n IH]; intros [|c rest] Hlen Hwf Hfree;
    try reflexivity; cbn [List.length] in Hlen; [lia|].
  cbn [well_formed encode_units] in *.
  cbn [no_crlf] in Hfree. apply andb_true_iff in Hfree as [Hc Hrest].
  destruct (is_high c) eqn:Hhigh.
  - destruct rest as [|d rest']; [discriminate|].
    apply andb_true_iff in Hwf as [Hlow Hwf]. rewrite Hlow.
    cbn [no_crlf] in Hrest. apply andb_true_iff in Hrest as [_ Hrest'].
    apply is_high_spec in Hhigh. apply is_low_spec in Hlow.
    rewrite no_crlf_high
      by (apply encode_point_high; unfold pair_point; lia).
    cbn [List.length] in Hlen. apply IH; [lia | assumption | assumption].
  - destruct (is_low c) eqn:Hlow; [discriminate|].
    apply andb_true_iff in Hwf as [_ Hwf].
    destruct (Z.ltb_spec c 0x80).
    + unfold encode_point.
      replace (c <? 0x80) with true by (symmetry; apply Z.ltb_lt; lia).
      cbn [app no_crlf]. rewrite starts_lf_encode_units, Hc.
      apply IH; [lia | assumption | assumption].
    + rewrite no_crlf_high by (apply encode_point_high; lia).
      apply IH; [lia | assumption | assumption].
Qed.

(** The text of the packet made from a well-formed text without CR LF
    is that text. *)
Lemma getText_getBytes (text : jsstring) :
  well_formed text = true ->
  no_crlf text = true ->
  getText (getBytes text) = text.
Proof.
  intros Hwf Hfree. unfold getText, getBytes, canonicalizeEOL.
  rewrite native_canonical.
  - apply utf8_decode_encode, Hwf.
  - unfold Utf8.encode.
    rewrite byte_values
      by (apply (encode_units_range (List.length text)); auto).
    apply (no_crlf_encode_units (List.length text)); auto.
  - discriminate.
Qed.

End LiteralFacts.

(** ** Properties of EncryptionService.ts *)

Module ClientSpec.

Import Client.

Section Facts.

Context {pgp : OpenPGP}.

Hypothesis Hunverifiable : unverifiable_without_keys.

Lemma truthy_false (s : option jsstring) :
  truthy s = false <-> s = None \/ s = Some [].
Proof.
  destruct s as [[|c s]|]; cbn; split; intros H; auto;
    try discriminate; destruct H as [H|H]; discriminate.
Qed.

Lemma signing_keys_without_passphrase
    (senderPrivateKey passphrase : option jsstring) :
  truthy passphrase = false ->
  signing_keys senderPrivateKey passphrase = Some None.
Proof.
  intros H. unfold signing_keys. rewrite H, andb_false_r. reflexivity.
Qed.

Lemma verification_keys_absent (senderPublicKey : option jsstring) :
  truthy senderPublicKey = false ->
  verification_keys senderPublicKey = Some None.
Proof. intros H. unfold verification_keys. rewrite H. reflexivity. Qed.

(** With a valid key pair, [decryptMessage] returns the text of the
    literal data packet that [encryptMessage] made from the plaintext. *)
Lemma message_literal (P pub priv passphrase : jsstring) (seed : Seed) :
  valid_keypair pub priv passphrase ->
  exists armored r,
    encryptMessage P pub None None seed = Ok armored /\
    decryptMessage armored priv passphrase None = Ok r /\
    message r = Literal.getText (Literal.getBytes P).
Proof.
  intros (publicKey & locked & privateKey & Hpub & Hpriv & Hunlock & Hall).
  destruct (Hall P seed)
    as (m & armored & m' & r & Hcreate & Henc & Hread & Hdec & Hdata).
  exists armored,
    {| message := data r;
       message_verified := first_verified (signatures r) |}.
  unfold encryptMessage, decryptMessage, signing_keys, verification_keys.
  cbn [truthy andb].
  rewrite Hpub, Hcreate, Henc, Hpriv, Hunlock, Hread, Hdec.
  repeat split. exact Hdata.
Qed.


(** C3 (as amended): with a sender private key, [encryptMessage]
    signs only if a passphrase is given too.  Without a passphrase
    (absent or empty) it returns what it returns when no signing is
    asked for; with a passphrase that does not unlock the key it
    throws its error and returns no ciphertext. *)
Theorem signing_request (msg pub sk : jsstring)
    (passphrase : option jsstring) (seed : Seed) :
  sk <> [] ->
  (truthy passphrase = false ->
   encryptMessage msg pub (Some sk) passphrase seed =
   encryptMessage msg pub None None seed) /\
  (forall pass,
     passphrase = Some pass ->
     pass <> [] ->
     (forall locked,
        readPrivateKey sk = Some locked ->
        decryptKey locked pass = None) ->
     encryptMessage msg pub (Some sk) passphrase seed =
     Throw (Error "Kunne ikke kryptere beskeden")).
Proof.
  intros Hsk. split.
  - intros Hpass. unfold encryptMessage.
    rewrite (signing_keys_without_passphrase _ _ Hpass).
    reflexivity.
  - intros pass -> Hpass Hlocked. unfold encryptMessage, signing_keys.
    destruct sk as [|c sk']; [contradiction|].
    destruct pass as [|p pass']; [contradiction|].
    cbn [truthy andb].
    destruct (readKey pub); [|reflexivity].
    destruct (createMessage_text msg); [|reflexivity].
    destruct (readPrivateKey (c :: sk')) as [locked|] eqn:E;
      [|reflexivity].
    rewrite (Hlocked locked eq_refl). reflexivity.
Qed.

(** C4: when the ciphertext decrypts, [decryptMessage] returns the
    decrypted message with [verified = false] in each of these cases:
    the message carries no signature, no sender public key is given,
    the verification of the signature fails. *)
Theorem verified_defaults_to_false
    (encryptedMessage privateKey passphrase : jsstring)
    (senderPublicKey : option jsstring)
    (locked unlocked : PrivateKey) (m : Message) (keys : option Key)
    (r : DecryptResult jsstring Signature) :
  readPrivateKey privateKey = Some locked ->
  decryptKey locked passphrase = Some unlocked ->
  readMessage_armored encryptedMessage = Some m ->
  verification_keys senderPublicKey = Some keys ->
  decrypt_utf8 m unlocked keys = Some r ->
  signatures r = [] \/
  truthy senderPublicKey = false \/
  (exists s rest, signatures r = s :: rest /\ verified s = false) ->
  decryptMessage encryptedMessage privateKey passphrase senderPublicKey =
  Ok {| message := data r; message_verified := false |}.
Proof.
  intros Hpriv Hunlock Hread Hkeys Hdec Hcase.
  unfold decryptMessage.
  rewrite Hpriv, Hunlock, Hread, Hkeys, Hdec. cbn [try_catch].
  do 2 f_equal.
  destruct Hcase as [Hnone | [Hnokey | (s & rest & Hsig & Hs)]].
  - rewrite Hnone. reflexivity.
  - rewrite (verification_keys_absent _ Hnokey) in Hkeys.
    injection Hkeys as <-.
    destruct (signatures r) as [|s rest] eqn:Hsig; [reflexivity|].
    cbn [first_verified].
    apply (Hunverifiable m unlocked r Hdec).
    rewrite Hsig. left. reflexivity.
  - rewrite Hsig. exact Hs.
Qed.

(** C5 (as amended): [decryptMessage] with a wrong passphrase throws
    the error that it throws for a corrupted ciphertext, the same
    [Error] with the same message: the two failures are not told
    apart at the call. *)
Theorem wrong_passphrase_same_error
    (encryptedMessage corrupted privateKey passphrase wrong : jsstring)
    (senderPublicKey : option jsstring) (locked : PrivateKey) :
  readPrivateKey privateKey = Some locked ->
  decryptKey locked wrong = None ->
  (forall m unlocked keys,
     readMessage_armored corrupted = Some m ->
     decrypt_utf8 m unlocked keys = None) ->
  decryptMessage encryptedMessage privateKey wrong senderPublicKey =
    Throw (Error "Kunne ikke dekryptere beskeden") /\
  decryptMessage corrupted privateKey passphrase senderPublicKey =
    Throw (Error "Kunne ikke dekryptere beskeden").
Proof.
  intros Hpriv Hwrong Hcorrupt. unfold decryptMessage. rewrite Hpriv.
  split.
  - rewrite Hwrong. reflexivity.
  - destruct (decryptKey locked passphrase) as [unlocked|];
      [|reflexivity].
    destruct (readMessage_armored corrupted) as [m|] eqn:E;
      [|reflexivity].
    destruct (verification_keys senderPublicKey) as [keys|];
      [|reflexivity].
    rewrite (Hcorrupt m unlocked keys eq_refl). reflexivity.
Qed.

(** C10: when the file decrypts and the message carries no file name
    (none, or an empty one), [decryptFile] returns the decrypted data
    under the name ['decrypted_file']. *)
Theorem fallback_filename
    (encrypted : Buffer) (privateKey passphrase : jsstring)
    (senderPublicKey : option jsstring)
    (locked unlocked : PrivateKey) (m : Message) (keys : option Key)
    (r : DecryptResult Buffer Signature) :
  readPrivateKey privateKey = Some locked ->
  decryptKey locked passphrase = Some unlocked ->
  readMessage_binary encrypted = Some m ->
  verification_keys senderPublicKey = Some keys ->
  decrypt_binary m unlocked keys = Some r ->
  filename r = None \/ filename r = Some [] ->
  decryptFile encrypted privateKey passphrase senderPublicKey =
  Ok {| decryptedData := data r;
        decrypted_filename := js "decrypted_file";
        file_verified := first_verified (signatures r) |}.
Proof.
  intros Hpriv Hunlock Hread Hkeys Hdec Hname.
  unfold decryptFile.
  rewrite Hpriv, Hunlock, Hread, Hkeys, Hdec. cbn [try_catch].
  unfold filename_or_default.
  apply truthy_false in Hname. rewrite Hname. reflexivity.
Qed.

End Facts.

(** *** The toy instance obeys the contract *)

Import ToyPGP.

Lemma toy_valid_keypair :
  valid_keypair (pgp := ToyText.toy_text) [7] [7] [8].
Proof.
  exists 7, (7, false), (7, true).
  split; [reflexivity|]. split; [reflexivity|]. split; [reflexivity|].
  intros text seed.
  exists {| recipient := None; signer := None; text := [];
            bin := Literal.getBytes text; fname := None |}.
  exists (7 :: 0 :: map byte_val (Literal.getBytes text)).
  exists {| recipient := Some 7; signer := None; text := [];
            bin := Literal.getBytes text; fname := None |}.
  exists {| data := Literal.getText (Literal.getBytes text);
            filename := None; signatures := [] |}.
  split; [reflexivity|]. split; [reflexivity|].
  split; [|split; reflexivity].
  cbn. unfold ToyText.text_read.
  rewrite LiteralFacts.bytes_of_values. reflexivity.
Qed.

Lemma toy_unverifiable : unverifiable_without_keys (pgp := toy_pgp).
Proof.
  intros m privateKey r. cbn. unfold toy_decrypt, toy_signatures.
  destruct (recipient m) as [k|]; [|discriminate].
  destruct (snd privateKey && (k =? fst privateKey)); [|discriminate].
  intros H. injection H as <-. cbn [signatures].
  destruct (signer m); cbn [In]; intros s Hin;
    [destruct Hin as [<-|[]]; reflexivity | destruct Hin].
Qed.

(** *** The theorems on concrete data *)



(** The key [9] with an empty passphrase, then with the wrong
    passphrase [11]. *)
Lemma signing_request_witness :
  encryptMessage (pgp := toy_pgp) (js "hello") [7] (Some [9]) (Some []) tt =
    encryptMessage (js "hello") [7] None None tt /\
  encryptMessage (pgp := toy_pgp) (js "hello") [7] (Some [9]) (Some [11]) tt =
    Throw (Error "Kunne ikke kryptere beskeden").
Proof.
  split.
  - apply (signing_request (pgp := toy_pgp) (js "hello") [7] [9] (Some []) tt);
      [discriminate | reflexivity].
  - apply (signing_request (pgp := toy_pgp) (js "hello") [7] [9]
             (Some [11]) tt) with (pass := [11]);
      [discriminate | reflexivity | discriminate |].
    intros locked H. injection H as <-. reflexivity.
Defined.

(** C3, as stated, fails when the private key of the sender comes
    without a passphrase: [encryptMessage] returns a ciphertext, the
    one without signer that it returns when no signing is asked for. *)
Lemma unsigned_without_passphrase :
  encryptMessage (pgp := toy_pgp) (js "hello") [7] (Some [9]) None tt =
    Ok (7 :: 0 :: js "hello") /\
  encryptMessage (pgp := toy_pgp) (js "hello") [7] None None tt =
    Ok (7 :: 0 :: js "hello") /\
  encryptMessage (pgp := toy_pgp) (js "hello") [7] (Some [9]) (Some [10]) tt =
    Ok (7 :: 9 :: js "hello").
Proof. repeat split. Qed.

(** A signed message read without sender key, an unsigned message, and
    a message signed by [9] checked against the key [5]. *)
Lemma verified_defaults_to_false_witness :
  decryptMessage (pgp := toy_pgp) (7 :: 9 :: js "hello") [7] [8] None =
    Ok {| message := js "hello"; message_verified := false |} /\
  decryptMessage (pgp := toy_pgp) (7 :: 0 :: js "hello") [7] [8] (Some [9]) =
    Ok {| message := js "hello"; message_verified := false |} /\
  decryptMessage (pgp := toy_pgp) (7 :: 9 :: js "hello") [7] [8] (Some [5]) =
    Ok {| message := js "hello"; message_verified := false |}.
Proof.
  split; [|split].
  - apply (verified_defaults_to_false (pgp := toy_pgp) toy_unverifiable
             (7 :: 9 :: js "hello") [7] [8] None (7, false) (7, true)
             {| recipient := Some 7; signer := Some 9; text := js "hello";
                bin := []; fname := None |}
             None
             {| data := js "hello"; filename := None;
                signatures := [false] |});
      try reflexivity.
    right. left. reflexivity.
  - apply (verified_defaults_to_false (pgp := toy_pgp) toy_unverifiable
             (7 :: 0 :: js "hello") [7] [8] (Some [9]) (7, false) (7, true)
             {| recipient := Some 7; signer := None; text := js "hello";
                bin := []; fname := None |}
             (Some 9)
             {| data := js "hello"; filename := None;
                signatures := [] |});
      try reflexivity.
    left. reflexivity.
  - apply (verified_defaults_to_false (pgp := toy_pgp) toy_unverifiable
             (7 :: 9 :: js "hello") [7] [8] (Some [5]) (7, false) (7, true)
             {| recipient := Some 7; signer := Some 9; text := js "hello";
                bin := []; fname := None |}
             (Some 5)
             {| data := js "hello"; filename := None;
                signatures := [false] |});
      try reflexivity.
    right. right. exists false, []. split; reflexivity.
Defined.

(** The wrong passphrase [99] and the corrupted ciphertext [7]. *)
Lemma wrong_passphrase_same_error_witness :
  decryptMessage (pgp := toy_pgp) (7 :: 0 :: js "hello") [7] [99] None =
    Throw (Error "Kunne ikke dekryptere beskeden") /\
  decryptMessage (pgp := toy_pgp) [7] [7] [8] None =
    Throw (Error "Kunne ikke dekryptere beskeden").
Proof.
  apply (wrong_passphrase_same_error (pgp := toy_pgp)
           (7 :: 0 :: js "hello") [7] [7] [8] [99] None (7, false));
    [reflexivity | reflexivity | discriminate].
Defined.

(** C5, as stated, fails: the ciphertext that decrypts under the
    passphrase [8] fails under the wrong passphrase [99] with exactly
    the result that the corrupted ciphertext [7] fails with. *)
Lemma wrong_passphrase_indistinguishable :
  decryptMessage (pgp := toy_pgp) (7 :: 0 :: js "hello") [7] [8] None =
    Ok {| message := js "hello"; message_verified := false |} /\
  decryptMessage (pgp := toy_pgp) (7 :: 0 :: js "hello") [7] [99] None =
    decryptMessage (pgp := toy_pgp) [7] [7] [8] None.
Proof. split; reflexivity. Qed.

(** A file whose message carries no name. *)
Lemma fallback_filename_witness :
  decryptFile (pgp := toy_pgp) [x07; x00; x2a] [7] [8] None =
    Ok {| decryptedData := [x2a];
          decrypted_filename := js "decrypted_file";
          file_verified := false |}.
Proof.
  apply (fallback_filename (pgp := toy_pgp) [x07; x00; x2a] [7] [8] None
           (7, false) (7, true)
           {| recipient := Some 7; signer := None; text := [];
              bin := [x2a]; fname := None |}
           None
           {| data := [x2a]; filename := None; signatures := [] |});
    try reflexivity.
  left. reflexivity.
Defined.

End ClientSpec.

(** ** More on the two encodings *)

Module TextFacts.

Import Utf8 Text Utf8Facts.

Lemma digit_lower (d : Z) : 0 <= d < 16 -> is_lower_digit (Hex.digit d) = true.
Proof.
  intros Hd. unfold is_lower_digit, Hex.digit.
  destruct (Z.ltb_spec d 10); apply orb_true_iff; [left | right];
    apply andb_true_iff; split; apply Z.leb_le; lia.
Qed.

(** [buf.toString('hex')] is made of lowercase hexadecimal digits. *)
Lemma encode_lower (b : Buffer) :
  Forall (fun c => is_lower_digit c = true) (Hex.encode b).
Proof.
  induction b as [|x b IH]; cbn [Hex.encode]; repeat constructor;
    try exact IH; apply digit_lower;
    [apply HexFacts.high_nibble | apply HexFacts.low_nibble].
Qed.

(** Decoding goes through an encoded prefix. *)
Lemma decode_encode_app (b : Buffer) (t : jsstring) :
  Hex.decode (Hex.encode b ++ t) = b ++ Hex.decode t.
Proof.
  induction b as [|x b IH]; [reflexivity|].
  cbn [Hex.encode app Hex.decode].
  rewrite (HexFacts.unhex_digit _ (HexFacts.high_nibble x)).
  rewrite (HexFacts.unhex_digit _ (HexFacts.low_nibble x)).
  rewrite HexFacts.nibbles, IH. reflexivity.
Qed.

Lemma unhex_upper (c : Z) : Hex.unhex (upper c) = Hex.unhex c.
Proof.
  unfold upper.
  destruct (Z.leb_spec 97 c); destruct (Z.leb_spec c 122);
    cbn [andb]; try reflexivity.
  unfold Hex.unhex. rewrite !Z.mod_small by lia.
  unfold Hex.unhex_byte.
  destruct (Z.leb_spec c 102).
  - repeat settle. cbn [andb]. f_equal. lia.
  - repeat settle. reflexivity.
Qed.

(** The case of the letters does not matter to [Buffer.from(s, 'hex')]. *)
Lemma decode_upper (s : jsstring) : Hex.decode (map upper s) = Hex.decode s.
Proof.
  induction s as [|a|a b s IH] using HexFacts.pair_ind;
    try reflexivity.
  cbn [map Hex.decode]. rewrite !unhex_upper, IH. reflexivity.
Qed.

(** Two characters at least are read for each byte. *)
Lemma decode_length (s : jsstring) :
  (2 * List.length (Hex.decode s) <= List.length s)%nat.
Proof.
  induction s as [|a|a b s IH] using HexFacts.pair_ind;
    cbn [Hex.decode List.length]; try lia.
  destruct (Hex.unhex a); [destruct (Hex.unhex b)|]; cbn [List.length]; lia.
Qed.

Lemma replacement_point : replacement = encode_point 0xFFFD.
Proof. reflexivity. Qed.

Lemma decode_replacement (rest : list Z) :
  decode_from None (replacement ++ rest) = 0xFFFD :: decode_from None rest.
Proof.
  rewrite replacement_point, decode_point by (unfold scalar; lia).
  reflexivity.
Qed.

(** What Node reads back from the UTF-8 byte values of any string. *)
Lemma decode_encode_units_any (n : nat) :
  forall s,
    (List.length s <= n)%nat ->
    code_units s ->
    decode_from None (encode_units s) = toWellFormed s.
Proof.
  induction n as [|n IH]; intros [|c rest] Hlen Hcu;
    try reflexivity; cbn [List.length] in Hlen; [lia|].
  apply Forall_cons_iff in Hcu as [Hc Hrest].
  cbn [encode_units toWellFormed].
  destruct (is_high c) eqn:Hhigh.
  - destruct rest as [|d rest'].
    + rewrite <- (app_nil_r replacement), decode_replacement. reflexivity.
    + destruct (is_low d) eqn:Hlow.
      * apply Forall_cons_iff in Hrest as [_ Hrest'].
        rewrite decode_point by (apply pair_point_scalar; assumption).
        rewrite emit_pair by assumption.
        cbn [List.length] in Hlen. rewrite IH by (assumption || lia).
        reflexivity.
      * rewrite decode_replacement, IH by (assumption || lia). reflexivity.
  - destruct (is_low c) eqn:Hlow.
    + rewrite decode_replacement, IH by (assumption || lia). reflexivity.
    + apply is_high_false in Hhigh. apply is_low_false in Hlow.
      rewrite decode_point by (unfold scalar; lia).
      rewrite emit_unit by lia.
      rewrite IH by (assumption || lia). reflexivity.
Qed.

Lemma encode_units_range_any (n : nat) :
  forall s,
    (List.length s <= n)%nat ->
    code_units s ->
    Forall (fun b => 0 <= b < 256) (encode_units s).
Proof.
  assert (Hrep : Forall (fun b => 0 <= b < 256) replacement)
    by (repeat constructor; lia).
  induction n as [|n IH]; intros [|c rest] Hlen Hcu;
    try apply Forall_nil; cbn [List.length] in Hlen; [lia|].
  apply Forall_cons_iff in Hcu as [Hc Hrest].
  cbn [encode_units].
  destruct (is_high c) eqn:Hhigh.
  - destruct rest as [|d rest']; [exact Hrep|].
    destruct (is_low d) eqn:Hlow; apply Forall_app; split; try exact Hrep.
    + apply encode_point_range.
      apply (pair_point_scalar c d); assumption.
    + apply Forall_cons_iff in Hrest as [_ Hrest'].
      cbn [List.length] in Hlen. apply IH; [lia | assumption].
    + apply IH; [lia | assumption].
  - destruct (is_low c) eqn:Hlow; apply Forall_app; split; try exact Hrep;
      try (apply IH; [lia | assumption]).
    apply encode_point_range. lia.
Qed.

(** [Buffer.from(s, 'utf8').toString('utf8')] is [s.toWellFormed()]. *)
Lemma utf8_decode_encode_any (s : jsstring) :
  code_units s -> Utf8.decode (Utf8.encode s) = toWellFormed s.
Proof.
  intros Hcu. unfold Utf8.decode, Utf8.encode.
  rewrite byte_values
    by (apply (encode_units_range_any (List.length s)); auto).
  apply (decode_encode_units_any (List.length s)); auto.
Qed.

End TextFacts.

(** ** More properties of encryption.service.ts *)

Module ServerMore.

Import Server ServerTokens Text.

Lemma encode_app (a b : Buffer) :
  Hex.encode (a ++ b) = Hex.encode a ++ Hex.encode b.
Proof.
  induction a as [|x a IH]; [reflexivity|].
  cbn [app Hex.encode]. rewrite IH. reflexivity.
Qed.

Section Facts.

Context {crypto : NodeCrypto}.
Variable secret : jsstring.

Hypothesis Hrandom : random_length.
Hypothesis Hkdf : pbkdf2_length.
Hypothesis Hseals : gcm_seals.
Hypothesis Hopens : gcm_opens.
Hypothesis Hneeds : gcm_needs_iv.
Hypothesis Hsized : random_size.


(** X2: [verifyPassword(p, hashPassword(p))] is [true] for every
    password [p]. *)
Theorem verifyPassword_hashPassword (p : jsstring) (g : entropy) :
  exists hashed,
    fst (hashPassword p g) = Ok hashed /\
    verifyPassword p hashed = Ok true.
Proof.
  destruct (ServerSpec.verifyHash_compares_keys Hrandom Hkdf p p g)
    as (stored & Hhash & Hverify).
  exists stored. split; [exact Hhash|].
  unfold verifyPassword. cbv zeta in Hverify.
  rewrite Hverify, bytes_eqb_refl. reflexivity.
Qed.

(** X3: the string returned by [hash] is made of 192 lowercase
    hexadecimal digits: the 64 bytes of the salt drawn, then the 32 bytes
    of the key derived from the data under that salt. *)
Theorem hash_shape (D : jsstring) (g : entropy) :
  exists stored salt,
    fst (hash D g) = Ok stored /\
    salt = fst (randomBytes saltLength g) /\
    List.length salt = 64%nat /\
    Hex.decode stored =
      salt ++ pbkdf2Sync D salt iterations keyLength digest /\
    List.length stored = 192%nat /\
    Forall (fun c => is_lower_digit c = true) stored.
Proof.
  destruct (ServerSpec.hash_spec Hrandom D g)
    as (salt & g' & Hdraw & Hsalt & Hhash).
  eexists. exists salt. rewrite Hhash, Hdraw. cbn [fst].
  split; [reflexivity|]. split; [reflexivity|]. split; [exact Hsalt|].
  rewrite HexFacts.hex_decode_encode, HexFacts.encode_length, length_app.
  unfold pbkdf2Sync. rewrite Hkdf, Hsalt.
  repeat split. apply TextFacts.encode_lower.
Qed.

(** X4: [verifyHash] returns a boolean exactly when the stored string
    decodes to 96 bytes; on any other stored string (empty, cut at a
    character that is no hexadecimal digit for Node, too short, too
    long) it throws its error instead of returning [false]. *)
Theorem verifyHash_malformed (D stored : jsstring) :
  (List.length (Hex.decode stored) = 96%nat ->
   exists b, verifyHash D stored = Ok b) /\
  (List.length (Hex.decode stored) <> 96%nat ->
   verifyHash D stored =
   Throw {| statusCode := INTERNAL_SERVER_ERROR;
            message := "Failed to verify hash" |}).
Proof.
  unfold verifyHash, timingSafeEqual, pbkdf2Sync, Buf.slice_from.
  rewrite Hkdf, length_skipn.
  split; intros Hlen.
  - rewrite Hlen. cbn [Nat.sub Nat.eqb keyLength saltLength].
    eexists. reflexivity.
  - replace (Nat.eqb keyLength (List.length (Hex.decode stored) - saltLength))
      with false; [reflexivity|].
    symmetry. apply Nat.eqb_neq. unfold keyLength, saltLength. lia.
Qed.

(** X5: text after an envelope is ignored when [Buffer.from(.., 'hex')]
    reads no byte from it (one character, or text in which one of the
    first two characters is no hexadecimal digit for Node): [decrypt]
    still returns the plaintext. *)
Theorem decrypt_ignores_tail (P : jsstring) (g : entropy)
    (envelope tail : jsstring) :
  Utf8.well_formed P = true ->
  fst (encrypt secret P g) = Ok envelope ->
  Hex.decode tail = [] ->
  decrypt secret (envelope ++ tail) = Ok P.
Proof.
  intros Hwf Henc Htail.
  destruct (ServerSpec.decrypt_encrypt_wf secret Hrandom Hkdf Hseals Hopens
              P g Hwf) as (e & He & Hdec).
  rewrite Henc in He. apply ServerSpec.ok_inj in He. subst e.
  destruct (ServerSpec.encrypt_spec secret Hrandom Hkdf Hseals P g)
    as (iv & g1 & salt & g2 & ciphertext & tag & _ & _ & _ & _ & _ & _ & Hspec).
  rewrite Hspec in Henc. apply ServerSpec.ok_inj in Henc. subst envelope.
  rewrite ServerSpec.decrypt_fail_closed in *. unfold decrypt_fields in *.
  rewrite TextFacts.decode_encode_app, Htail, app_nil_r.
  rewrite HexFacts.hex_decode_encode in Hdec. exact Hdec.
Qed.

(** X6: [decrypt] and [verifyHash] do not see the case of the letters
    of their hexadecimal argument: on a string and on the same string
    with its letters in upper case they return the same result. *)
Theorem uppercase_is_the_same (D s : jsstring) :
  decrypt secret (map upper s) = decrypt secret s /\
  verifyHash D (map upper s) = verifyHash D s.
Proof.
  unfold decrypt, decrypt_fields, verifyHash.
  rewrite TextFacts.decode_upper. split; reflexivity.
Qed.

(** X7: [decrypt] throws its error on every string that decodes to 64
    bytes or less (the empty string, a string that starts with a
    character that is no hexadecimal digit for Node, a string of less
    than 130 characters): no IV is left for the decipher. *)
Theorem decrypt_short_envelope (envelope : jsstring) :
  (List.length (Hex.decode envelope) <= 64)%nat \/
  (List.length envelope < 130)%nat ->
  decrypt secret envelope =
  Throw {| statusCode := INTERNAL_SERVER_ERROR;
           message := "Failed to decrypt data" |}.
Proof.
  intros Hshort.
  assert (Hlen : (List.length (Hex.decode envelope) <= saltLength)%nat).
  { unfold saltLength. destruct Hshort as [H|H]; [exact H|].
    pose proof (TextFacts.decode_length envelope). lia. }
  rewrite ServerSpec.decrypt_fail_closed. unfold decrypt_fields, Buf.slice.
  rewrite (skipn_all2 (n := saltLength) (Hex.decode envelope) Hlen).
  rewrite firstn_nil, Hneeds. reflexivity.
Qed.

(** X8: two calls of [hash] on the same data whose salts differ return
    two different strings, and the data verifies against both. *)
Theorem hash_twice_differs (D : jsstring) (g1 g2 : entropy) :
  fst (randomBytes saltLength g1) <> fst (randomBytes saltLength g2) ->
  exists s1 s2,
    fst (hash D g1) = Ok s1 /\
    fst (hash D g2) = Ok s2 /\
    s1 <> s2 /\
    verifyHash D s1 = Ok true /\
    verifyHash D s2 = Ok true.
Proof.
  intros Hfresh.
  destruct (ServerSpec.hash_spec Hrandom D g1)
    as (salt1 & g1' & Hd1 & Hs1 & Hh1).
  destruct (ServerSpec.hash_spec Hrandom D g2)
    as (salt2 & g2' & Hd2 & Hs2 & Hh2).
  rewrite Hd1, Hd2 in Hfresh. cbn [fst] in Hfresh.
  eexists. eexists. rewrite Hh1, Hh2. cbn [fst].
  split; [reflexivity|]. split; [reflexivity|]. split; [|split].
  - intros Heq. apply HexFacts.encode_inj in Heq.
    apply Hfresh.
    rewrite <- (firstn_exact salt1
                  (pbkdf2Sync D salt1 iterations keyLength digest) _ Hs1).
    rewrite Heq. apply firstn_exact, Hs2.
  - rewrite (ServerSpec.verifyHash_stored D salt1 _ Hs1).
    unfold timingSafeEqual. rewrite Nat.eqb_refl, bytes_eqb_refl.
    reflexivity.
  - rewrite (ServerSpec.verifyHash_stored D salt2 _ Hs2).
    unfold timingSafeEqual. rewrite Nat.eqb_refl, bytes_eqb_refl.
    reflexivity.
Qed.

(** X9: [encrypt] does not throw, and its envelope is made of lowercase
    hexadecimal digits, 192 for salt, IV and tag and two for each byte
    of the ciphertext. *)
Theorem envelope_shape (P : jsstring) (g : entropy) :
  exists envelope salt iv tag ciphertext,
    fst (encrypt secret P g) = Ok envelope /\
    draws g = (iv, salt) /\
    seal algorithm (pbkdf2Sync secret salt iterations keyLength digest)
      iv (Utf8.encode P) = Some (ciphertext, tag) /\
    List.length envelope = (192 + 2 * List.length ciphertext)%nat /\
    Forall (fun c => is_lower_digit c = true) envelope.
Proof.
  destruct (ServerSpec.encrypt_spec secret Hrandom Hkdf Hseals P g)
    as (iv & g1 & salt & g2 & ciphertext & tag &
        Hdiv & Hdsalt & Hseal & Hsalt & Hiv & Htag & Henc).
  eexists. exists salt, iv, tag, ciphertext. rewrite Henc. cbn [fst].
  split; [reflexivity|].
  split; [unfold draws; rewrite Hdiv, Hdsalt; reflexivity|].
  split; [exact Hseal|].
  split; [|apply TextFacts.encode_lower].
  rewrite HexFacts.encode_length, !length_app, Hsalt, Hiv, Htag.
  unfold saltLength, ivLength, tagLength. lia.
Qed.

(** X10: for every string [P], [decrypt] of the envelope of [P] returns
    [P.toWellFormed()]: [P] with U+FFFD in place of each surrogate that
    is not half of a pair. *)
Theorem decrypt_encrypt_toWellFormed (P : jsstring) (g : entropy) :
  code_units P ->
  exists envelope,
    fst (encrypt secret P g) = Ok envelope /\
    decrypt secret envelope = Ok (toWellFormed P).
Proof.
  intros Hcu.
  destruct (ServerSpec.decrypt_encrypt_utf8 secret Hrandom Hkdf Hseals
              Hopens P g) as (envelope & Henc & Hdec).
  exists envelope. split; [exact Henc|].
  rewrite Hdec, TextFacts.utf8_decode_encode_any by exact Hcu.
  reflexivity.
Qed.

End Facts.

(** *** The theorems on concrete data *)

Import Server.Toy ToyFacts.

Lemma toy_gcm_needs_iv : gcm_needs_iv (crypto := toy_crypto).
Proof.
  intros key tag ciphertext. cbn. unfold toy_open.
  cbn [List.length Nat.eqb negb]. rewrite andb_false_r. reflexivity.
Qed.

Lemma toy_random_size : random_size (crypto := toy_crypto).
Proof. intros n g _. apply repeat_length. Qed.


(** The password ["hunter2"]. *)
Lemma verifyPassword_hashPassword_witness :
  exists hashed,
    fst (hashPassword (crypto := toy_crypto) (js "hunter2") 0%nat) =
      Ok hashed /\
    verifyPassword (js "hunter2") hashed = Ok true.
Proof.
  exact (verifyPassword_hashPassword (crypto := toy_crypto)
           toy_random_length toy_pbkdf2_length (js "hunter2") 0%nat).
Defined.

(** The hash of ["hunter2"]. *)
Lemma hash_shape_witness :
  exists stored salt,
    fst (hash (crypto := toy_crypto) (js "hunter2") 0%nat) = Ok stored /\
    salt = fst (randomBytes (NodeCrypto := toy_crypto) saltLength 0%nat) /\
    List.length salt = 64%nat /\
    Hex.decode stored =
      salt ++ pbkdf2Sync (js "hunter2") salt iterations keyLength digest /\
    List.length stored = 192%nat /\
    Forall (fun c => is_lower_digit c = true) stored.
Proof.
  exact (hash_shape (crypto := toy_crypto)
           toy_random_length toy_pbkdf2_length (js "hunter2") 0%nat).
Defined.

(** A stored string that is not a hash. *)
Lemma verifyHash_malformed_witness :
  verifyHash (crypto := toy_crypto) (js "hunter2") (js "not a hash") =
  Throw {| statusCode := INTERNAL_SERVER_ERROR;
           message := "Failed to verify hash" |}.
Proof.
  apply (verifyHash_malformed (crypto := toy_crypto) toy_pbkdf2_length
           (js "hunter2") (js "not a hash")).
  vm_compute. discriminate.
Defined.

(** The sample envelope followed by an exclamation mark. *)
Lemma decrypt_ignores_tail_witness :
  decrypt (crypto := toy_crypto) (js "shared-secret")
    (sample_envelope ++ js "!") = Ok (js "secret-token").
Proof.
  apply (decrypt_ignores_tail (crypto := toy_crypto) (js "shared-secret")
           toy_random_length toy_pbkdf2_length toy_gcm_seals toy_gcm_opens
           (js "secret-token") 170%nat sample_envelope (js "!")).
  - reflexivity.
  - vm_compute. reflexivity.
  - reflexivity.
Defined.

(** The empty string. *)
Lemma decrypt_short_envelope_witness :
  decrypt (crypto := toy_crypto) (js "shared-secret") [] =
  Throw {| statusCode := INTERNAL_SERVER_ERROR;
           message := "Failed to decrypt data" |}.
Proof.
  apply (decrypt_short_envelope (crypto := toy_crypto) (js "shared-secret")
           toy_gcm_needs_iv []).
  right. cbn [List.length]. lia.
Defined.

(** Two hashes of ["hunter2"] in the entropy states 0 and 1. *)
Lemma hash_twice_differs_witness :
  exists s1 s2,
    fst (hash (crypto := toy_crypto) (js "hunter2") 0%nat) = Ok s1 /\
    fst (hash (crypto := toy_crypto) (js "hunter2") 1%nat) = Ok s2 /\
    s1 <> s2 /\
    verifyHash (js "hunter2") s1 = Ok true /\
    verifyHash (js "hunter2") s2 = Ok true.
Proof.
  apply (hash_twice_differs (crypto := toy_crypto) toy_random_length
           (js "hunter2") 0%nat 1%nat).
  vm_compute. discriminate.
Defined.

(** The envelope of ["secret-token"]. *)
Lemma envelope_shape_witness :
  exists envelope salt iv tag ciphertext,
    fst (encrypt (crypto := toy_crypto) (js "shared-secret")
           (js "secret-token") 0%nat) = Ok envelope /\
    draws (crypto := toy_crypto) 0%nat = (iv, salt) /\
    seal algorithm
      (pbkdf2Sync (js "shared-secret") salt iterations keyLength digest)
      iv (Utf8.encode (js "secret-token")) = Some (ciphertext, tag) /\
    List.length envelope = (192 + 2 * List.length ciphertext)%nat /\
    Forall (fun c => is_lower_digit c = true) envelope.
Proof.
  exact (envelope_shape (crypto := toy_crypto) (js "shared-secret")
           toy_random_length toy_pbkdf2_length toy_gcm_seals
           (js "secret-token") 0%nat).
Defined.

(** The letter A, an unpaired surrogate and the letter B. *)
Lemma decrypt_encrypt_toWellFormed_witness :
  exists envelope,
    fst (encrypt (crypto := toy_crypto) (js "shared-secret")
           [0x41; 0xD800; 0x42] 0%nat) = Ok envelope /\
    decrypt (js "shared-secret") envelope = Ok [0x41; 0xFFFD; 0x42].
Proof.
  apply (decrypt_encrypt_toWellFormed (crypto := toy_crypto)
           (js "shared-secret") toy_random_length toy_pbkdf2_length
           toy_gcm_seals toy_gcm_opens [0x41; 0xD800; 0x42] 0%nat).
  repeat constructor; lia.
Defined.

End ServerMore.

(** ** The regular expression and the cache *)

Module KeysFacts.

Import Client ClientKeys.

Lemma jsstring_eqb_eq (a b : jsstring) : jsstring_eqb a b = true <-> a = b.
Proof.
  revert b. induction a as [|x a IH]; intros [|y b]; cbn [jsstring_eqb];
    split; intros H; try discriminate; try reflexivity.
  - apply andb_true_iff in H as [Hxy Hab].
    apply Z.eqb_eq in Hxy. apply IH in Hab. subst. reflexivity.
  - apply cons_inj in H as [-> ->].
    rewrite Z.eqb_refl. apply IH. reflexivity.
Qed.

Lemma jsstring_eqb_refl (a : jsstring) : jsstring_eqb a a = true.
Proof. apply jsstring_eqb_eq. reflexivity. Qed.

Lemma jsstring_eqb_neq (a b : jsstring) : a <> b -> jsstring_eqb a b = false.
Proof.
  intros Hne. destruct (jsstring_eqb a b) eqn:E; [|reflexivity].
  apply jsstring_eqb_eq in E. contradiction.
Qed.

(** [map.get(k)] after [map.set(k, v)]. *)
Lemma cache_get_set_same (k : jsstring) (v : KeyPair) (cache : KeyCache) :
  cache_get k (cache_set k v cache) = Some v.
Proof.
  induction cache as [|[k' v'] cache IH]; cbn [cache_set cache_get].
  - rewrite jsstring_eqb_refl. reflexivity.
  - destruct (jsstring_eqb k k') eqn:E; cbn [cache_get]; rewrite E.
    + reflexivity.
    + exact IH.
Qed.

(** [map.get(k')] after [map.set(k, v)] for another key. *)
Lemma cache_get_set_other (k k' : jsstring) (v : KeyPair)
    (cache : KeyCache) :
  k' <> k -> cache_get k' (cache_set k v cache) = cache_get k' cache.
Proof.
  intros Hne.
  induction cache as [|[k0 v0] cache IH]; cbn [cache_set cache_get].
  - rewrite (jsstring_eqb_neq _ _ Hne). reflexivity.
  - destruct (jsstring_eqb k k0) eqn:E; cbn [cache_get].
    + apply jsstring_eqb_eq in E. subst k0.
      rewrite (jsstring_eqb_neq _ _ Hne). reflexivity.
    + rewrite IH. reflexivity.
Qed.

(** [dots] takes a prefix of the string, free of line terminators. *)
Lemma dots_prefix (s : jsstring) :
  exists tail,
    s = dots s ++ tail /\
    Forall (fun c => line_terminator c = false) (dots s).
Proof.
  induction s as [|c s (tail & Hs & Hfree)]; cbn [dots].
  - exists []. split; [reflexivity | constructor].
  - destruct (line_terminator c) eqn:E.
    + exists (c :: s). split; [reflexivity | constructor].
    + exists tail. cbn [app]. rewrite <- Hs.
      split; [reflexivity | constructor; assumption].
Qed.

Lemma dots_app (a b : jsstring) :
  Forall (fun c => line_terminator c = false) a ->
  dots (a ++ b) = a ++ dots b.
Proof.
  induction 1 as [|c a Hc _ IH]; [reflexivity|].
  cbn [app dots]. rewrite Hc, IH. reflexivity.
Qed.

(** What [greedy] returns is not empty and is followed by [>]. *)
Lemma greedy_sound (line e : jsstring) :
  greedy line = Some e ->
  e <> [] /\ exists post, line = e ++ 62 :: post.
Proof.
  revert e. induction line as [|c rest IH]; intros e; cbn [greedy];
    [discriminate|].
  destruct (greedy rest) as [e'|] eqn:E.
  - intros H. injection H as <-.
    destruct (IH e' eq_refl) as (_ & post & ->).
    split; [discriminate | exists post; reflexivity].
  - destruct rest as [|d rest']; [discriminate|].
    destruct (Z.eqb_spec d 62) as [->|]; [|discriminate].
    intros H. injection H as <-.
    split; [discriminate | exists rest'; reflexivity].
Qed.

Lemma greedy_none (line : jsstring) :
  Forall (fun c => c <> 62) (tl line) -> greedy line = None.
Proof.
  induction line as [|c rest IH]; cbn [greedy tl]; [reflexivity|].
  intros Hrest. destruct rest as [|d rest']; [reflexivity|].
  apply Forall_cons_iff in Hrest as [Hd Hrest'].
  rewrite (IH Hrest'). apply Z.eqb_neq in Hd. rewrite Hd. reflexivity.
Qed.

Lemma greedy_cons (c : Z) (rest : jsstring) :
  greedy (c :: rest) =
  match greedy rest with
  | Some e => Some (c :: e)
  | None =>
      match rest with
      | d :: _ => if d =? 62 then Some [c] else None
      | [] => None
      end
  end.
Proof. reflexivity. Qed.

(** [greedy] goes to the last [>]. *)
Lemma greedy_last (e post : jsstring) :
  e <> [] ->
  Forall (fun c => c <> 62) post ->
  greedy (e ++ 62 :: post) = Some e.
Proof.
  intros He Hpost. induction e as [|c e IH]; [contradiction|].
  destruct e as [|c' e'].
  - cbn [app]. rewrite greedy_cons, (greedy_none (62 :: post) Hpost).
    reflexivity.
  - cbn [app] in *. rewrite greedy_cons, IH by discriminate.
    reflexivity.
Qed.

(** The group of [/<(.+)>/] stands between [<] and [>] in the string; it
    is not empty and holds no line terminator. *)
Lemma match_angle_sound (s e : jsstring) :
  match_angle s = Some e ->
  e <> [] /\
  Forall (fun c => line_terminator c = false) e /\
  exists pre post, s = pre ++ 60 :: e ++ 62 :: post.
Proof.
  induction s as [|c rest IH]; cbn [match_angle]; [discriminate|].
  assert (Hskip : match_angle rest = Some e ->
            e <> [] /\
            Forall (fun c => line_terminator c = false) e /\
            exists pre post, c :: rest = pre ++ 60 :: e ++ 62 :: post).
  { intros H. destruct (IH H) as (He & Hfree & pre & post & ->).
    repeat split; try assumption. exists (c :: pre), post. reflexivity. }
  destruct (Z.eqb_spec c 60) as [->|]; [|exact Hskip].
  destruct (greedy (dots rest)) as [e'|] eqn:E; [|exact Hskip].
  intros H. injection H as <-.
  destruct (greedy_sound _ _ E) as (He & post & Hline).
  destruct (dots_prefix rest) as (tail & Hrest & Hfree).
  rewrite Hline in Hfree. apply Forall_app in Hfree as [Hfree _].
  repeat split; try assumption.
  exists [], (post ++ tail). cbn [app].
  rewrite Hrest at 1. rewrite Hline, <- app_assoc. reflexivity.
Qed.

(** The group is what stands between the first [<] and the last [>] of
    the line of that [<]. *)
Lemma match_angle_complete (pre e post : jsstring) :
  Forall (fun c => c <> 60) pre ->
  e <> [] ->
  Forall (fun c => line_terminator c = false) e ->
  Forall (fun c => c <> 62) (dots post) ->
  match_angle (pre ++ 60 :: e ++ 62 :: post) = Some e.
Proof.
  intros Hpre He Hfree Hpost.
  induction Hpre as [|c pre Hc _ IH]; cbn [app match_angle].
  - rewrite (dots_app e (62 :: post) Hfree). cbn [dots].
    replace (line_terminator 62) with false by reflexivity.
    rewrite (greedy_last e (dots post) He Hpost). reflexivity.
  - apply Z.eqb_neq in Hc. rewrite Hc. exact IH.
Qed.

End KeysFacts.

(** ** More properties of EncryptionService.ts *)

Module ClientMore.

Import Client ClientKeys.

Section Facts.

Context {pgp : OpenPGP} {keys : OpenPGPKeys}.

Hypothesis Hunverifiable : unverifiable_file_without_keys.
Hypothesis Harmor : armor_parses.

Lemma validatePublicKey_false (pub : jsstring) :
  validatePublicKey pub = false -> readKey pub = None.
Proof.
  unfold validatePublicKey. destruct (readKey pub); [discriminate|].
  reflexivity.
Qed.

Lemma validatePrivateKey_false (priv passphrase : jsstring) :
  validatePrivateKey priv passphrase = false ->
  (locked <- readPrivateKey priv ;; decryptKey locked passphrase) = None.
Proof.
  unfold validatePrivateKey.
  destruct (locked <- readPrivateKey priv ;; decryptKey locked passphrase);
    [discriminate | reflexivity].
Qed.

(** X11: with a recipient public key that [validatePublicKey] refuses,
    [encryptMessage], [encryptFile] and [exportPublicKey] throw their
    errors, whatever the other arguments are, and [getKeyEmail] returns
    [null]. *)
Theorem refused_public_key (pub : jsstring) :
  validatePublicKey pub = false ->
  (forall msg sk passphrase seed,
     encryptMessage msg pub sk passphrase seed =
     Throw (Error "Kunne ikke kryptere beskeden")) /\
  (forall file sk passphrase seed,
     encryptFile file pub sk passphrase seed =
     Throw (Error "Kunne ikke kryptere filen")) /\
  exportPublicKey pub =
    Throw (Error "Kunne ikke eksportere offentlig nøgle") /\
  getKeyEmail pub = None.
Proof.
  intros H. apply validatePublicKey_false in H.
  unfold encryptMessage, encryptFile, exportPublicKey, getKeyEmail.
  rewrite H. repeat split.
  intros file sk passphrase seed.
  destruct (createMessage_binary (content file) (name file)); reflexivity.
Qed.

(** X12: with a private key and passphrase that [validatePrivateKey]
    refuses, [decryptMessage] and [decryptFile] throw their errors on
    every ciphertext, with or without sender key. *)
Theorem refused_private_key (priv passphrase : jsstring) :
  validatePrivateKey priv passphrase = false ->
  (forall encryptedMessage senderPublicKey,
     decryptMessage encryptedMessage priv passphrase senderPublicKey =
     Throw (Error "Kunne ikke dekryptere beskeden")) /\
  (forall encrypted senderPublicKey,
     decryptFile encrypted priv passphrase senderPublicKey =
     Throw (Error "Kunne ikke dekryptere filen")).
Proof.
  intros H. apply validatePrivateKey_false in H.
  unfold decryptMessage, decryptFile.
  destruct (readPrivateKey priv) as [locked|]; [|split; reflexivity].
  rewrite H. split; reflexivity.
Qed.

(** X13: a sender public key that is given and does not parse makes
    [decryptMessage] and [decryptFile] throw: the message is not
    returned with [verified = false]. *)
Theorem refused_sender_key (priv passphrase sender : jsstring) :
  sender <> [] ->
  validatePublicKey sender = false ->
  (forall encryptedMessage,
     decryptMessage encryptedMessage priv passphrase (Some sender) =
     Throw (Error "Kunne ikke dekryptere beskeden")) /\
  (forall encrypted,
     decryptFile encrypted priv passphrase (Some sender) =
     Throw (Error "Kunne ikke dekryptere filen")).
Proof.
  intros Hsender H. apply validatePublicKey_false in H.
  assert (Hkeys : verification_keys (Some sender) = None).
  { unfold verification_keys. destruct sender; [contradiction|].
    cbn [truthy]. rewrite H. reflexivity. }
  unfold decryptMessage, decryptFile. rewrite Hkeys.
  split; intros c.
  - destruct (readPrivateKey priv) as [locked|]; [|reflexivity].
    destruct (decryptKey locked passphrase); [|reflexivity].
    destruct (readMessage_armored c); reflexivity.
  - destruct (readPrivateKey priv) as [locked|]; [|reflexivity].
    destruct (decryptKey locked passphrase); [|reflexivity].
    destruct (readMessage_binary c); reflexivity.
Qed.

(** X14: when the file decrypts, [decryptFile] returns the decrypted
    data and the file name with [verified = false] in each of these
    cases: the message carries no signature, no sender public key is
    given, the verification of the first signature fails. *)
Theorem file_verified_defaults_to_false
    (encrypted : Buffer) (priv passphrase : jsstring)
    (senderPublicKey : option jsstring)
    (locked unlocked : PrivateKey) (m : Message) (vkeys : option Key)
    (r : DecryptResult Buffer Signature) :
  readPrivateKey priv = Some locked ->
  decryptKey locked passphrase = Some unlocked ->
  readMessage_binary encrypted = Some m ->
  verification_keys senderPublicKey = Some vkeys ->
  decrypt_binary m unlocked vkeys = Some r ->
  signatures r = [] \/
  truthy senderPublicKey = false \/
  (exists s rest, signatures r = s :: rest /\ verified s = false) ->
  decryptFile encrypted priv passphrase senderPublicKey =
  Ok {| decryptedData := data r;
        decrypted_filename := filename_or_default (filename r);
        file_verified := false |}.
Proof.
  intros Hpriv Hunlock Hread Hkeys Hdec Hcase.
  unfold decryptFile.
  rewrite Hpriv, Hunlock, Hread, Hkeys, Hdec. cbn [try_catch].
  do 2 f_equal.
  destruct Hcase as [Hnone | [Hnokey | (s & rest & Hsig & Hs)]].
  - rewrite Hnone. reflexivity.
  - unfold verification_keys in Hkeys. rewrite Hnokey in Hkeys.
    injection Hkeys as <-.
    destruct (signatures r) as [|s rest] eqn:Hsig; [reflexivity|].
    cbn [first_verified].
    apply (Hunverifiable m unlocked r Hdec).
    rewrite Hsig. left. reflexivity.
  - rewrite Hsig. exact Hs.
Qed.

(** X15: with a sender private key, [encryptFile] signs only if a
    passphrase is given too.  Without a passphrase (absent or empty) it
    returns what it returns when no signing is asked for; with a
    passphrase that [validatePrivateKey] refuses for that key it throws
    its error. *)
Theorem file_signing_request (file : File) (pub sk : jsstring)
    (passphrase : option jsstring) (seed : Seed) :
  sk <> [] ->
  (truthy passphrase = false ->
   encryptFile file pub (Some sk) passphrase seed =
   encryptFile file pub None None seed) /\
  (forall pass,
     passphrase = Some pass ->
     pass <> [] ->
     validatePrivateKey sk pass = false ->
     encryptFile file pub (Some sk) passphrase seed =
     Throw (Error "Kunne ikke kryptere filen")).
Proof.
  intros Hsk. split.
  - intros Hpass. unfold encryptFile, signing_keys.
    rewrite Hpass, andb_false_r. reflexivity.
  - intros pass -> Hpass Hrefused.
    apply validatePrivateKey_false in Hrefused.
    unfold encryptFile, signing_keys.
    destruct sk as [|c sk']; [contradiction|].
    destruct pass as [|p pass']; [contradiction|].
    cbn [truthy andb].
    destruct (createMessage_binary (content file) (name file));
      [|reflexivity].
    destruct (readKey pub); [|reflexivity].
    destruct (readPrivateKey (c :: sk')) as [locked|]; [|reflexivity].
    rewrite Hrefused. reflexivity.
Qed.

(** X16: for a file and a key pair valid for it, [encryptFile] returns
    the encrypted data under the name of the file followed by [.pgp],
    and [decryptFile] of that data returns the content of the file under
    its own name, or under ['decrypted_file'] when the name is empty. *)
Theorem file_roundtrip (file : File) (pub priv passphrase : jsstring)
    (seed : Seed) :
  valid_keypair_file pub priv passphrase file seed ->
  exists e r,
    encryptFile file pub None None seed = Ok e /\
    encrypted_filename e = name file ++ js ".pgp" /\
    decryptFile (encryptedData e) priv passphrase None = Ok r /\
    decryptedData r = content file /\
    decrypted_filename r =
      match name file with
      | [] => js "decrypted_file"
      | _ :: _ => name file
      end.
Proof.
  intros (key & locked & unlocked & m & encrypted & m' & r &
          Hpub & Hpriv & Hunlock & Hcreate & Henc & Hread & Hdec &
          Hdata & Hname).
  exists {| encryptedData := encrypted;
            encrypted_filename := name file ++ js ".pgp" |}.
  exists {| decryptedData := data r;
            decrypted_filename := filename_or_default (filename r);
            file_verified := first_verified (signatures r) |}.
  unfold encryptFile, decryptFile, signing_keys, verification_keys.
  cbn [truthy andb encryptedData encrypted_filename].
  rewrite Hcreate, Hpub, Henc, Hpriv, Hunlock, Hread, Hdec.
  cbn [try_catch decryptedData decrypted_filename].
  repeat split; [exact Hdata|].
  rewrite Hname. unfold filename_or_default.
  destruct (name file); reflexivity.
Qed.

(** X17: [generateKeyPair] either throws its error and leaves the cache
    as it was, or returns a pair made of the generated keys, the address
    and the date, and the cache then holds that pair for the address,
    in place of any pair it held for it, the pairs of the other
    addresses being as before. *)
Theorem generateKeyPair_cache (mail passphrase : jsstring) (seed : Seed)
    (now : jsstring) (cache : KeyCache) :
  match generateKeyPair mail passphrase seed now cache with
  | (Throw e, cache') =>
      generateKey mail passphrase seed = None /\
      e = Error "Kunne ikke generere nøglepar" /\
      cache' = cache
  | (Ok keyPair, cache') =>
      generateKey mail passphrase seed =
        Some (privateKey keyPair, publicKey keyPair) /\
      email keyPair = mail /\
      createdAt keyPair = now /\
      cache_get mail cache' = Some keyPair /\
      forall other, other <> mail ->
        cache_get other cache' = cache_get other cache
  end.
Proof.
  unfold generateKeyPair.
  destruct (generateKey mail passphrase seed) as [[priv pub]|].
  - cbn [privateKey publicKey email createdAt].
    repeat split.
    + apply KeysFacts.cache_get_set_same.
    + intros other Hother. apply KeysFacts.cache_get_set_other, Hother.
  - repeat split.
Qed.

(** X18: what [getKeyEmail] returns is not empty, holds no line
    terminator and stands between [<] and [>] in the first user ID of
    the key. *)
Theorem getKeyEmail_sound (pub mail : jsstring) :
  getKeyEmail pub = Some mail ->
  mail <> [] /\
  Forall (fun c => line_terminator c = false) mail /\
  exists key rest before after,
    readKey pub = Some key /\
    getUserIDs key = (before ++ 60 :: mail ++ 62 :: after) :: rest.
Proof.
  unfold getKeyEmail.
  destruct (readKey pub) as [key|] eqn:Hkey; [|discriminate].
  destruct (getUserIDs key) as [|first rest] eqn:Hids; [discriminate|].
  destruct (match_angle first) as [[|c e]|] eqn:E; try discriminate.
  intros H. injection H as <-.
  destruct (KeysFacts.match_angle_sound _ _ E)
    as (He & Hfree & before & after & ->).
  split; [exact He|]. split; [exact Hfree|].
  exists key, rest, before, after. split; [reflexivity | exact Hids].
Qed.

(** X19: when the first user ID of the key is a text without [<], then
    [<], an address on one line, [>], and a text without [>] on that
    line, [getKeyEmail] returns the address; the other user IDs are not
    looked at. *)
Theorem getKeyEmail_address (pub : jsstring) (key : Key)
    (before mail after : jsstring) (rest : list jsstring) :
  readKey pub = Some key ->
  getUserIDs key = (before ++ 60 :: mail ++ 62 :: after) :: rest ->
  Forall (fun c => c <> 60) before ->
  mail <> [] ->
  Forall (fun c => line_terminator c = false) mail ->
  Forall (fun c => c <> 62) (dots after) ->
  getKeyEmail pub = Some mail.
Proof.
  intros Hkey Hids Hbefore Hmail Hfree Hafter.
  unfold getKeyEmail. rewrite Hkey, Hids.
  rewrite (KeysFacts.match_angle_complete before mail after
             Hbefore Hmail Hfree Hafter).
  destruct mail; [contradiction | reflexivity].
Qed.

(** X20: the string that [exportPublicKey] returns for a key that
    [validatePublicKey] accepts is accepted too, exports to itself and
    has the same address. *)
Theorem exportPublicKey_stable (pub : jsstring) :
  validatePublicKey pub = true ->
  exists exported,
    exportPublicKey pub = Ok exported /\
    validatePublicKey exported = true /\
    exportPublicKey exported = Ok exported /\
    getKeyEmail exported = getKeyEmail pub.
Proof.
  unfold validatePublicKey, exportPublicKey, getKeyEmail.
  destruct (readKey pub) as [key|]; [|discriminate].
  intros _. exists (armor key). rewrite (Harmor key).
  repeat split.
Qed.

End Facts.

(** *** The toy instance obeys the contract *)

Import ToyPGP ToyKeys.

Lemma toy_unverifiable_file : unverifiable_file_without_keys (pgp := toy_pgp).
Proof.
  intros m unlocked r. cbn. unfold toy_decrypt, toy_signatures.
  destruct (recipient m) as [k|]; [|discriminate].
  destruct (snd unlocked && (k =? fst unlocked)); [|discriminate].
  intros H. injection H as <-. cbn [signatures].
  destruct (signer m); cbn [In]; intros s Hin;
    [destruct Hin as [<-|[]]; reflexivity | destruct Hin].
Qed.

Lemma toy_armor_parses : armor_parses (pgp := toy_pgp) (keys := toy_keys).
Proof. intros key. reflexivity. Qed.

(** *** The theorems on concrete data *)

(** The empty string is no key. *)
Lemma refused_public_key_witness :
  (forall msg sk passphrase seed,
     encryptMessage (pgp := toy_pgp) msg [] sk passphrase seed =
     Throw (Error "Kunne ikke kryptere beskeden")) /\
  (forall file sk passphrase seed,
     encryptFile (pgp := toy_pgp) file [] sk passphrase seed =
     Throw (Error "Kunne ikke kryptere filen")) /\
  exportPublicKey (pgp := toy_pgp) (keys := toy_keys) [] =
    Throw (Error "Kunne ikke eksportere offentlig nøgle") /\
  getKeyEmail (pgp := toy_pgp) (keys := toy_keys) [] = None.
Proof.
  exact (refused_public_key (pgp := toy_pgp) (keys := toy_keys) [] eq_refl).
Defined.

(** The key [7] with the wrong passphrase [99]. *)
Lemma refused_private_key_witness :
  (forall encryptedMessage senderPublicKey,
     decryptMessage (pgp := toy_pgp) encryptedMessage [7] [99]
       senderPublicKey =
     Throw (Error "Kunne ikke dekryptere beskeden")) /\
  (forall encrypted senderPublicKey,
     decryptFile (pgp := toy_pgp) encrypted [7] [99] senderPublicKey =
     Throw (Error "Kunne ikke dekryptere filen")).
Proof.
  exact (refused_private_key (pgp := toy_pgp) [7] [99] eq_refl).
Defined.

(** The sender key ["junk"]. *)
Lemma refused_sender_key_witness :
  (forall encryptedMessage,
     decryptMessage (pgp := toy_pgp) encryptedMessage [7] [8]
       (Some (js "junk")) =
     Throw (Error "Kunne ikke dekryptere beskeden")) /\
  (forall encrypted,
     decryptFile (pgp := toy_pgp) encrypted [7] [8] (Some (js "junk")) =
     Throw (Error "Kunne ikke dekryptere filen")).
Proof.
  apply (refused_sender_key (pgp := toy_pgp) [7] [8] (js "junk"));
    [discriminate | reflexivity].
Defined.

(** A file signed by [9], read without sender key. *)
Lemma file_verified_defaults_to_false_witness :
  decryptFile (pgp := toy_pgp) [x07; x09; x2a] [7] [8] None =
  Ok {| decryptedData := [x2a];
        decrypted_filename := js "decrypted_file";
        file_verified := false |}.
Proof.
  apply (file_verified_defaults_to_false (pgp := toy_pgp)
           toy_unverifiable_file [x07; x09; x2a] [7] [8] None
           (7, false) (7, true)
           {| recipient := Some 7; signer := Some 9; text := [];
              bin := [x2a]; fname := None |}
           None
           {| data := [x2a]; filename := None; signatures := [false] |});
    try reflexivity.
  right. left. reflexivity.
Defined.

(** The key [9] with an empty passphrase, then with the wrong
    passphrase [11]. *)
Lemma file_signing_request_witness :
  encryptFile (pgp := toy_pgp) {| name := js "a.txt"; content := [x2a] |}
    [7] (Some [9]) (Some []) tt =
  encryptFile {| name := js "a.txt"; content := [x2a] |} [7] None None tt /\
  encryptFile (pgp := toy_pgp) {| name := js "a.txt"; content := [x2a] |}
    [7] (Some [9]) (Some [11]) tt =
  Throw (Error "Kunne ikke kryptere filen").
Proof.
  split.
  - apply (file_signing_request (pgp := toy_pgp)
             {| name := js "a.txt"; content := [x2a] |} [7] [9]
             (Some []) tt); [discriminate | reflexivity].
  - apply (file_signing_request (pgp := toy_pgp)
             {| name := js "a.txt"; content := [x2a] |} [7] [9]
             (Some [11]) tt) with (pass := [11]);
      [discriminate | reflexivity | discriminate | reflexivity].
Defined.

Lemma toy_files_valid :
  valid_keypair_file (pgp := toy_files) [7] [7] [8]
    {| name := js "a.txt"; content := [x01; x02] |} tt.
Proof.
  exists 7, (7, false), (7, true).
  exists {| recipient := None; signer := None; text := [];
            bin := [x01; x02]; fname := Some (js "a.txt") |}.
  eexists. eexists. eexists.
  repeat split; try reflexivity.
Qed.

(** The file [a.txt] through the key pair [7]. *)
Lemma file_roundtrip_witness :
  exists e r,
    encryptFile (pgp := toy_files)
      {| name := js "a.txt"; content := [x01; x02] |} [7] None None tt =
      Ok e /\
    encrypted_filename e = js "a.txt.pgp" /\
    decryptFile (pgp := toy_files) (encryptedData e) [7] [8] None = Ok r /\
    decryptedData r = [x01; x02] /\
    decrypted_filename r = js "a.txt".
Proof.
  exact (file_roundtrip (pgp := toy_files)
           {| name := js "a.txt"; content := [x01; x02] |} [7] [7] [8] tt
           toy_files_valid).
Defined.

(** The address of Alice. *)
Lemma getKeyEmail_sound_witness :
  js "alice@example.com" <> [] /\
  Forall (fun c => line_terminator c = false) (js "alice@example.com") /\
  exists key rest before after,
    readKey (OpenPGP := toy_pgp) [7] = Some key /\
    getUserIDs (OpenPGPKeys := toy_keys) key =
      (before ++ 60 :: js "alice@example.com" ++ 62 :: after) :: rest.
Proof.
  apply (getKeyEmail_sound (pgp := toy_pgp) (keys := toy_keys)
           [7] (js "alice@example.com")).
  reflexivity.
Defined.

(** The user ID [Alice <alice@example.com>]. *)
Lemma getKeyEmail_address_witness :
  getKeyEmail (pgp := toy_pgp) (keys := toy_keys) [7] =
  Some (js "alice@example.com").
Proof.
  apply (getKeyEmail_address (pgp := toy_pgp) (keys := toy_keys)
           [7] 7 (js "Alice ") (js "alice@example.com") []
           [js "<old@example.com>"]).
  - reflexivity.
  - reflexivity.
  - repeat constructor; discriminate.
  - discriminate.
  - repeat constructor.
  - constructor.
Defined.

(** The key [7]. *)
Lemma exportPublicKey_stable_witness :
  exists exported,
    exportPublicKey (pgp := toy_pgp) (keys := toy_keys) [7] = Ok exported /\
    validatePublicKey exported = true /\
    exportPublicKey exported = Ok exported /\
    getKeyEmail exported = getKeyEmail (pgp := toy_pgp) (keys := toy_keys) [7].
Proof.
  exact (exportPublicKey_stable (pgp := toy_pgp) (keys := toy_keys)
           toy_armor_parses [7] eq_refl).
Defined.

End ClientMore.
